(** * Next-Maps: the semantic geocoding cache

    A shallow embedding of [backend/utils/distance.ts] and
    [backend/services/semanticCacheService.ts], with the properties of the
    cache's matching, eviction and normalisation code, and of the services
    and routes around it ([ollamaService.ts], [geocodingService.ts],
    [server.ts]).

    Conventions of the embedding:
    - a JavaScript [number] is a real number ([R]); the arithmetic is exact,
      so rounding, infinities and NaN are outside the model, and a property
      that gives the exact value of a computation holds over the reals;
    - the thresholds of the cache are at their defaults in [SemanticCache]
      and parameters in [Configured];
    - a JavaScript string is the list of its code units; the development
      covers the code units below U+0100, one [ascii] each;
    - a [Date] is its number of milliseconds since the epoch ([Z]);
    - the answers of the collaborators of the cache (embedding service,
      geocoding provider, clock) are inputs of every call ([Env]);
    - every public method runs from call to return in one step. *)

From Stdlib Require Import Reals Lra Lia ZArith List String Ascii Bool.
From stdpp Require Import gmap strings.
Import ListNotations.

(** ** Numbers *)

Definition Rltb (a b : R) : bool := if Rlt_dec a b then true else false.
Definition Rgtb (a b : R) : bool := Rltb b a.
Definition Reqb (a b : R) : bool := if Req_dec_T a b then true else false.

Lemma Rltb_true (a b : R) : Rltb a b = true <-> (a < b)%R.
Proof. unfold Rltb. destruct (Rlt_dec a b); split; intros; congruence || tauto. Qed.

Lemma Rltb_false (a b : R) : Rltb a b = false <-> (b <= a)%R.
Proof.
  unfold Rltb. destruct (Rlt_dec a b); split; intros; try congruence; try lra.
Qed.

Lemma Reqb_true (a b : R) : Reqb a b = true <-> a = b.
Proof. unfold Reqb. destruct (Req_dec_T a b); split; intros; congruence. Qed.

Lemma Reqb_false (a b : R) : Reqb a b = false <-> a <> b.
Proof. unfold Reqb. destruct (Req_dec_T a b); split; intros; congruence. Qed.

(** ** backend/utils/distance.ts: the similarity engine *)

Module Distance.

Local Open Scope R_scope.

(** [Math.atan2 y x] on the reals. *)
Definition atan2 (y x : R) : R :=
  if Rlt_dec 0 x then atan (y / x)
  else if Rlt_dec x 0 then
         if Rle_dec 0 y then atan (y / x) + PI else atan (y / x) - PI
  else if Rlt_dec 0 y then PI / 2
  else if Rlt_dec y 0 then - (PI / 2)
  else 0.

Definition haversineDistance (lat1 lng1 lat2 lng2 : R) : R :=
  let R_ := 6371000 in
  let phi1 := lat1 * PI / 180 in
  let phi2 := lat2 * PI / 180 in
  let dphi := (lat2 - lat1) * PI / 180 in
  let dlam := (lng2 - lng1) * PI / 180 in
  let a :=
    sin (dphi / 2) * sin (dphi / 2) +
    cos phi1 * cos phi2 * sin (dlam / 2) * sin (dlam / 2) in
  let c := 2 * atan2 (sqrt a) (sqrt (1 - a)) in
  R_ * c.

(** The accumulators of the loop of [cosineSimilarity]. *)
Record Sums := { dotProduct : R; mag1 : R; mag2 : R }.

(** The loop [for (i = 0; i < vec1.length; i++)], run on vectors of one
    length: element [i] of both vectors is consumed at step [i]. *)
Fixpoint cosineLoop (vec1 vec2 : list R) (acc : Sums) : Sums :=
  match vec1, vec2 with
  | x :: vec1', y :: vec2' =>
      cosineLoop vec1' vec2'
        {| dotProduct := dotProduct acc + x * y;
           mag1 := mag1 acc + x * x;
           mag2 := mag2 acc + y * y |}
  | _, _ => acc
  end.

Definition cosineSimilarity (vec1 vec2 : list R) : R :=
  if negb (length vec1 =? length vec2)%nat then 0
  else
    let acc := cosineLoop vec1 vec2 {| dotProduct := 0; mag1 := 0; mag2 := 0 |} in
    let m1 := sqrt (mag1 acc) in
    let m2 := sqrt (mag2 acc) in
    if Reqb m1 0 || Reqb m2 0 then 0
    else dotProduct acc / (m1 * m2).

(** *** normalizeAddress

    Strings are processed as lists of code units. *)

Definition code (c : ascii) : N := N_of_ascii c.

Definition inRange (lo hi : N) (c : ascii) : bool :=
  ((lo <=? code c) && (code c <=? hi))%N.

(** [\s], also the set removed by [trim]: TAB, LF, VT, FF, CR, SPACE and
    NO-BREAK SPACE. *)
Definition isSpace (c : ascii) : bool :=
  inRange 9 13 c || (code c =? 32)%N || (code c =? 160)%N.

(** [\w] is [[A-Za-z0-9_]]. *)
Definition isWord (c : ascii) : bool :=
  inRange 65 90 c || inRange 97 122 c || inRange 48 57 c || (code c =? 95)%N.

(** [toLowerCase] on one code unit: A-Z, and the upper-case letters of
    U+00C0..U+00DE (U+00D7, the multiplication sign, is not a letter). *)
Definition toLowerChar (c : ascii) : ascii :=
  if inRange 65 90 c || (inRange 192 222 c && negb (code c =? 215)%N)
  then ascii_of_N (code c + 32)
  else c.

Definition toLowerCase (s : list ascii) : list ascii := map toLowerChar s.

Fixpoint trimStart (s : list ascii) : list ascii :=
  match s with
  | c :: s' => if isSpace c then trimStart s' else s
  | [] => []
  end.

Fixpoint trimEnd (s : list ascii) : list ascii :=
  match s with
  | c :: s' =>
      match trimEnd s' with
      | [] => if isSpace c then [] else [c]
      | t => c :: t
      end
  | [] => []
  end.

Definition trim (s : list ascii) : list ascii := trimEnd (trimStart s).

Definition space : ascii := " "%char.

(** [.replace(/\s+/g, ' ')]: [inRun] says that the code unit before the
    position belongs to the run of white space being replaced. *)
Fixpoint collapseFrom (inRun : bool) (s : list ascii) : list ascii :=
  match s with
  | c :: s' =>
      if isSpace c
      then if inRun then collapseFrom true s' else space :: collapseFrom true s'
      else c :: collapseFrom false s'
  | [] => []
  end.

Definition collapseSpaces (s : list ascii) : list ascii := collapseFrom false s.

(** [.replace(/[^\w\s]/g, '')] *)
Definition stripPunctuation (s : list ascii) : list ascii :=
  List.filter (fun c => isWord c || isSpace c) s.

Definition isWordAt (o : option ascii) : bool :=
  match o with Some c => isWord c | None => false end.

(** The assertion [\b] between the code unit [prev] and the code unit [next]
    ([None] at the ends of the string). *)
Definition wordBoundary (prev next : option ascii) : bool :=
  xorb (isWordAt prev) (isWordAt next).

(** The rest of [s] behind the literal [w], when [s] starts with [w]. *)
Fixpoint stripPrefix (w s : list ascii) : option (list ascii) :=
  match w, s with
  | [], _ => Some s
  | a :: w', b :: s' => if Ascii.eqb a b then stripPrefix w' s' else None
  | _ :: _, [] => None
  end.

Definition lastOr (prev : option ascii) (w : list ascii) : option ascii :=
  match last w with Some c => Some c | None => prev end.

(** Does [/\bw\b/] match at the position that has [prev] before it and [s]
    from it on? *)
Definition matchesAt (w : list ascii) (prev : option ascii) (s : list ascii) : bool :=
  wordBoundary prev (head s) &&
  match stripPrefix w s with
  | Some rest => wordBoundary (lastOr prev w) (head rest)
  | None => false
  end.

(** [.replace(/\bw\b/g, r)]: the scan tries the pattern at every position
    from left to right; after a match it resumes behind the matched text
    ([skip] counts the code units of the match still to be passed over). *)
Fixpoint replaceFrom (w r : list ascii) (prev : option ascii) (skip : nat)
    (s : list ascii) : list ascii :=
  match s with
  | c :: s' =>
      match skip with
      | S k => replaceFrom w r (Some c) k s'
      | O =>
          if matchesAt w prev s
          then r ++ replaceFrom w r (Some c) (length w - 1) s'
          else c :: replaceFrom w r (Some c) 0 s'
      end
  | [] => []
  end.

Definition replaceWord (w r : string) (s : list ascii) : list ascii :=
  replaceFrom (list_ascii_of_string w) (list_ascii_of_string r) None 0 s.

Definition expandAbbreviations (s : list ascii) : list ascii :=
  replaceWord "maha" "maharashtra"
    (replaceWord "mh" "maharashtra"
      (replaceWord "ave" "avenue"
        (replaceWord "st" "street"
          (replaceWord "rd" "road" s)))).

Definition normalizeChars (s : list ascii) : list ascii :=
  expandAbbreviations
    (stripPunctuation (collapseSpaces (trim (toLowerCase s)))).

Definition normalizeAddress (address : string) : string :=
  string_of_list_ascii (normalizeChars (list_ascii_of_string address)).

End Distance.

(** ** The keyed store *)

Module NodeCache.

(** Modelled from the spec: the [node-cache] package, whose class
    [NodeCache] is the keyed timed store of the service, is not among the
    sources.  The spec describes it as a keyed index with a time to live per
    key and cumulative hit and miss counters "incremented only by the
    keyed-store lookups"; [set] binds a key (replacing an earlier binding of
    the same key), [del] unbinds it, [flushAll] "resets the keyed store". *)
Record t (V : Type) := Make {
  stdTTL : Z;                      (* seconds; 0 means no expiry *)
  data : gmap string (Z * V);      (* key -> (expiry instant, value) *)
  hits : nat;
  misses : nat
}.
Arguments Make {V}.
Arguments stdTTL {V}.
Arguments data {V}.
Arguments hits {V}.
Arguments misses {V}.

Section Ops.
Context {V : Type}.

(** Modelled from the spec: [new NodeCache({ stdTTL })], an empty store
    with both counters at 0. *)
Definition create (ttl : Z) : t V :=
  Make ttl ∅ 0 0.

(** Modelled from the spec: the instant at which a key set at [now]
    expires ("expires entries after a configurable TTL"); 0 stands for
    never. *)
Definition livetime (c : t V) (now : Z) : Z :=
  if (stdTTL c =? 0)%Z then 0%Z else (now + stdTTL c * 1000)%Z.

(** Modelled from the spec: a record is expired "once its age exceeds the
    configured TTL". *)
Definition expired (now : Z) (r : Z * V) : bool :=
  negb (fst r =? 0)%Z && (fst r <? now)%Z.

(** Modelled from the spec: [set] of node-cache, the insertion into the
    "keyed index"; a key has one record, the last one set. *)
Definition set (now : Z) (key : string) (v : V) (c : t V) : t V :=
  Make (stdTTL c) (<[key := (livetime c now, v)]> (data c)) (hits c) (misses c).

(** Modelled from the spec: [del] of node-cache, the removal of a key
    from the keyed store. *)
Definition del (key : string) (c : t V) : t V :=
  Make (stdTTL c) (delete key (data c)) (hits c) (misses c).

(** Modelled from the spec: [get] of node-cache, the keyed lookup; the
    counters are "incremented only by the keyed-store lookups", and an
    expired record is "silently treated as absent". *)
Definition get (now : Z) (key : string) (c : t V) : option V * t V :=
  match data c !! key with
  | Some r =>
      if expired now r
      then (None, Make (stdTTL c) (delete key (data c)) (hits c) (S (misses c)))
      else (Some (snd r), Make (stdTTL c) (data c) (S (hits c)) (misses c))
  | None => (None, Make (stdTTL c) (data c) (hits c) (S (misses c)))
  end.

(** Modelled from the spec: [keys] of node-cache, the keys of the store
    (their order is not specified). *)
Definition keys (c : t V) : list string := map fst (map_to_list (data c)).

(** Modelled from the spec: [flushAll] of node-cache, which "resets the
    keyed store": no keys, counters at 0. *)
Definition flushAll (c : t V) : t V :=
  Make (stdTTL c) ∅ 0 0.

(** Modelled from the spec: the timed store "independently expires
    entries after a configurable TTL"; one run of its check at the instant
    [now] deletes every expired key. *)
Definition checkData (now : Z) (c : t V) : t V :=
  Make (stdTTL c) (filter (fun kv => expired now (snd kv) = false) (data c))
       (hits c) (misses c).

End Ops.
End NodeCache.

(** ** backend/types *)

Record StructuredAddress := {
  building : option string;
  street : option string;
  area : option string;
  city : option string;
  state : option string;
  pincode : option string;
  country : option string
}.

Inductive Source := FromCache | FromApi.

Record GeocodingResult := {
  rLat : R;
  rLng : R;
  rDisplayName : string;
  rStructured : StructuredAddress;
  source : Source
}.

Record CacheEntry := {
  address : string;
  normalized : string;
  lat : R;
  lng : R;
  structured : StructuredAddress;
  displayName : string;
  embedding : list R;
  timestamp : Z
}.

(** ** backend/services/semanticCacheService.ts *)

Module SemanticCache.
Import Distance.

(** The configuration, at its defaults. *)
Definition CACHE_TTL : Z := 86400.
Definition SIMILARITY_THRESHOLD : R := 0.85.
Definition DISTANCE_THRESHOLD : R := 500.

(** The fields of [SemanticCacheService]. *)
Record Service := {
  cache : NodeCache.t CacheEntry;
  cacheEntries : list CacheEntry
}.

(** [new SemanticCacheService()] *)
Definition create : Service :=
  {| cache := NodeCache.create CACHE_TTL; cacheEntries := [] |}.

(** What the collaborators answer during one call: the embedding service,
    the geocoding provider (which answers [None] on an empty response, an
    error or a timeout) and the clock. *)
Record Env := {
  generateEmbedding : string -> list R;
  geocode : string -> option GeocodingResult;
  reverseGeocode : R -> R -> option GeocodingResult;
  now : Z
}.

(** The variables [bestMatch] and [bestScore] of [findSimilar]. *)
Record Best := { bestMatch : option CacheEntry; bestScore : R }.

(** The body of the loop of [findSimilar]. *)
Definition findSimilarStep (queryEmbedding : list R) (b : Best) (entry : CacheEntry) : Best :=
  let similarity := cosineSimilarity queryEmbedding (embedding entry) in
  if Rgtb similarity SIMILARITY_THRESHOLD then
    match bestMatch b with
    | Some best =>
        let distance := haversineDistance (lat entry) (lng entry) (lat best) (lng best) in
        if Rltb distance DISTANCE_THRESHOLD && Rgtb similarity (bestScore b)
        then {| bestMatch := Some entry; bestScore := similarity |}
        else b
    | None => {| bestMatch := Some entry; bestScore := similarity |}
    end
  else b.

Definition findSimilar (svc : Service) (normalizedAddress : string)
    (queryEmbedding : list R) : option CacheEntry :=
  bestMatch
    (fold_left (findSimilarStep queryEmbedding) (cacheEntries svc)
       {| bestMatch := None; bestScore := 0 |}).

(** The loop of [findNearby], which returns from inside. *)
Fixpoint findNearbyIn (entries : list CacheEntry) (lat0 lng0 radiusMeters : R)
    : option CacheEntry :=
  match entries with
  | entry :: rest =>
      if Rltb (haversineDistance lat0 lng0 (lat entry) (lng entry)) radiusMeters
      then Some entry
      else findNearbyIn rest lat0 lng0 radiusMeters
  | [] => None
  end.

Definition findNearby (svc : Service) (lat0 lng0 radiusMeters : R) : option CacheEntry :=
  findNearbyIn (cacheEntries svc) lat0 lng0 radiusMeters.

Definition keyOf (normalized : string) : string := String.append "geo:" normalized.

(** The key of an entry in the keyed store: [`geo:${entry.normalized}`]. *)
Definition entryKey (entry : CacheEntry) : string := keyOf (normalized entry).

Definition store (svc : Service) (address normalized : string)
    (result : GeocodingResult) (embedding : list R) (now : Z) : Service :=
  let cacheEntry :=
    {| address := address;
       normalized := normalized;
       lat := rLat result;
       lng := rLng result;
       structured := rStructured result;
       displayName := rDisplayName result;
       embedding := embedding;
       timestamp := now |} in
  let key := keyOf normalized in
  let cache1 := NodeCache.set now key cacheEntry (cache svc) in
  let entries1 := cacheEntries svc ++ [cacheEntry] in
  if (1000 <? length entries1)%nat then
    match entries1 with
    | removed :: rest =>
        {| cache := NodeCache.del (entryKey removed) cache1;
           cacheEntries := rest |}
    | [] => {| cache := cache1; cacheEntries := [] |}
    end
  else {| cache := cache1; cacheEntries := entries1 |}.

Definition fromCache (e : CacheEntry) : GeocodingResult :=
  {| rLat := lat e;
     rLng := lng e;
     rDisplayName := displayName e;
     rStructured := structured e;
     source := FromCache |}.

Definition geocodeWithCache (svc : Service) (env : Env) (address : string)
    : option GeocodingResult * Service :=
  let normalized := normalizeAddress address in
  let queryEmbedding := generateEmbedding env normalized in
  match findSimilar svc normalized queryEmbedding with
  | Some cachedResult => (Some (fromCache cachedResult), svc)
  | None =>
      match geocode env address with
      | Some result =>
          (Some result, store svc address normalized result queryEmbedding (now env))
      | None => (None, svc)
      end
  end.

Definition reverseGeocodeWithCache (svc : Service) (env : Env) (lat0 lng0 : R)
    : option GeocodingResult * Service :=
  match findNearby svc lat0 lng0 100 with
  | Some nearby => (Some (fromCache nearby), svc)
  | None =>
      match reverseGeocode env lat0 lng0 with
      | Some result =>
          let normalized := normalizeAddress (rDisplayName result) in
          let embedding := generateEmbedding env normalized in
          (Some result, store svc (rDisplayName result) normalized result embedding (now env))
      | None => (None, svc)
      end
  end.

Record Stats := { entries : nat; keys : nat; statHits : nat; statMisses : nat }.

Definition getStats (svc : Service) : Stats :=
  {| entries := length (cacheEntries svc);
     keys := length (NodeCache.keys (cache svc));
     statHits := NodeCache.hits (cache svc);
     statMisses := NodeCache.misses (cache svc) |}.

Definition clear (svc : Service) : Service :=
  {| cache := NodeCache.flushAll (cache svc); cacheEntries := [] |}.

(** What can happen to the service: a call of one of its public methods, or
    the expiry check of the keyed store at some instant. *)
Inductive Event :=
| Geocode (env : Env) (address : string)
| ReverseGeocode (env : Env) (lat0 lng0 : R)
| GetStats
| Clear
| Expire (now : Z).

Definition step (svc : Service) (ev : Event) : Service :=
  match ev with
  | Geocode env address => snd (geocodeWithCache svc env address)
  | ReverseGeocode env lat0 lng0 => snd (reverseGeocodeWithCache svc env lat0 lng0)
  | GetStats => svc
  | Clear => clear svc
  | Expire now => {| cache := NodeCache.checkData now (cache svc);
                     cacheEntries := cacheEntries svc |}
  end.

Definition run (evs : list Event) : Service := fold_left step evs create.

End SemanticCache.

(** *** The thresholds as configuration

    [SIMILARITY_THRESHOLD] and [DISTANCE_THRESHOLD] are read from the
    environment when the module is loaded; 0.85 and 500 are used when the
    variables are not set.  These are [findSimilar] and [geocodeWithCache]
    under any two thresholds. *)

Module Configured.
Import Distance SemanticCache.

Section Thresholds.
Variables similarityThreshold distanceThreshold : R.

Definition findSimilarStep (queryEmbedding : list R) (b : Best) (entry : CacheEntry) : Best :=
  let similarity := cosineSimilarity queryEmbedding (embedding entry) in
  if Rgtb similarity similarityThreshold then
    match bestMatch b with
    | Some best =>
        let distance := haversineDistance (lat entry) (lng entry) (lat best) (lng best) in
        if Rltb distance distanceThreshold && Rgtb similarity (bestScore b)
        then {| bestMatch := Some entry; bestScore := similarity |}
        else b
    | None => {| bestMatch := Some entry; bestScore := similarity |}
    end
  else b.

Definition findSimilar (svc : Service) (normalizedAddress : string)
    (queryEmbedding : list R) : option CacheEntry :=
  bestMatch
    (fold_left (findSimilarStep queryEmbedding) (cacheEntries svc)
       {| bestMatch := None; bestScore := 0 |}).

Definition geocodeWithCache (svc : Service) (env : Env) (address : string)
    : option GeocodingResult * Service :=
  let normalized := normalizeAddress address in
  let queryEmbedding := generateEmbedding env normalized in
  match findSimilar svc normalized queryEmbedding with
  | Some cachedResult => (Some (fromCache cachedResult), svc)
  | None =>
      match geocode env address with
      | Some result =>
          (Some result, store svc address normalized result queryEmbedding (now env))
      | None => (None, svc)
      end
  end.

End Thresholds.
End Configured.

(** ** backend/services/ollamaService.ts *)

Module OllamaService.
Import Distance.
Local Open Scope R_scope.

(** The loop of [fallbackEmbedding]: [i] is the index of the first code
    unit of [normalized] in the text. *)
Fixpoint hashInto (embedding : list R) (i : nat) (normalized : list ascii)
    : list R :=
  match normalized with
  | c :: rest =>
      let charCode := N.to_nat (code c) in
      let index := ((charCode * (i + 1)) mod length embedding)%nat in
      hashInto (alter (fun v => v + INR charCode / 1000) index embedding)
        (i + 1) rest
  | [] => embedding
  end.

Definition fallbackEmbedding (text : string) : list R :=
  let normalized := trim (toLowerCase (list_ascii_of_string text)) in
  let embedding := hashInto (replicate 384 0) 0 normalized in
  let magnitude :=
    sqrt (fold_left (fun sum val => sum + val * val) embedding 0) in
  map (fun val => if Rgtb magnitude 0 then val / magnitude else 0) embedding.

(** What the request to Ollama comes to: a response with an embedding, a
    response without one, or an exception (refused connection, timeout). *)
Inductive Reply :=
| Embedding (embedding : list R)
| NoEmbedding
| Failed.

Definition generateEmbedding (text : string) (reply : Reply) : list R :=
  match reply with
  | Embedding embedding => embedding
  | NoEmbedding => fallbackEmbedding text
  | Failed => fallbackEmbedding text
  end.

End OllamaService.

(** ** backend/services/geocodingService.ts *)

Module GeocodingService.

(** The fields of the [address] object of Nominatim that [parseAddress]
    reads; [None] is [undefined]. *)
Record OsmAddress := {
  osmBuilding : option string;
  osmHouseNumber : option string;
  osmRoad : option string;
  osmStreet : option string;
  osmSuburb : option string;
  osmNeighbourhood : option string;
  osmQuarter : option string;
  osmCity : option string;
  osmTown : option string;
  osmVillage : option string;
  osmMunicipality : option string;
  osmState : option string;
  osmPostcode : option string;
  osmCountry : option string
}.

(** A string is truthy unless it is empty; [undefined] is falsy. *)
Definition truthy (v : option string) : bool :=
  match v with
  | Some s => negb (String.eqb s "")
  | None => false
  end.

(** [a || b] *)
Definition orElse (a b : option string) : option string :=
  if truthy a then a else b.

Definition parseAddress (osmAddress : OsmAddress) : StructuredAddress :=
  {| building := orElse (osmBuilding osmAddress) (osmHouseNumber osmAddress);
     street := orElse (osmRoad osmAddress) (osmStreet osmAddress);
     area := orElse (orElse (osmSuburb osmAddress) (osmNeighbourhood osmAddress))
                    (osmQuarter osmAddress);
     city := orElse (orElse (orElse (osmCity osmAddress) (osmTown osmAddress))
                            (osmVillage osmAddress))
                    (osmMunicipality osmAddress);
     state := osmState osmAddress;
     pincode := osmPostcode osmAddress;
     country := osmCountry osmAddress |}.

(** One element of the response of [/search], and the response of
    [/reverse].  An [address] that is missing makes [parseAddress] throw. *)
Record Place := {
  placeLat : string;
  placeLon : string;
  placeDisplayName : string;
  placeAddress : option OsmAddress
}.

(** What a request to Nominatim comes to: a response with its data
    ([None] when the data is falsy), or an exception. *)
Inductive Reply (A : Type) :=
| Responded (data : option A)
| Threw.
Arguments Responded {A}.
Arguments Threw {A}.

Section Geocode.
(** [parseFloat], the number parser of the language. *)
Variable parseFloat : string -> R.

Definition geocode (address : string) (reply : Reply (list Place))
    : option GeocodingResult :=
  match reply with
  | Responded (Some (result :: _)) =>
      match placeAddress result with
      | Some osm =>
          Some {| rLat := parseFloat (placeLat result);
                  rLng := parseFloat (placeLon result);
                  rDisplayName := placeDisplayName result;
                  rStructured := parseAddress osm;
                  source := FromApi |}
      | None => None
      end
  | Responded (Some []) => None
  | Responded None => None
  | Threw => None
  end.

End Geocode.

Definition reverseGeocode (lat0 lng0 : R) (reply : Reply Place)
    : option GeocodingResult :=
  match reply with
  | Responded (Some data) =>
      match placeAddress data with
      | Some osm =>
          Some {| rLat := lat0;
                  rLng := lng0;
                  rDisplayName := placeDisplayName data;
                  rStructured := parseAddress osm;
                  source := FromApi |}
      | None => None
      end
  | Responded None => None
  | Threw => None
  end.

(** [String.prototype.includes] *)
Fixpoint includes (hay needle : list ascii) : bool :=
  match Distance.stripPrefix needle hay with
  | Some _ => true
  | None =>
      match hay with
      | _ :: hay' => includes hay' needle
      | [] => false
      end
  end.

(** [Array.prototype.sort] with a comparator.  The sort of the language is
    stable, and for a comparator that is a consistent order every stable
    sort returns the same array; the insertion sort stands for it.  A
    result that is not positive keeps [x] before [y]. *)
Fixpoint insertBy {A : Type} (compare : A -> A -> Z) (x : A) (sorted : list A)
    : list A :=
  match sorted with
  | y :: rest =>
      if (compare x y <=? 0)%Z then x :: sorted
      else y :: insertBy compare x rest
  | [] => [x]
  end.

Fixpoint sortBy {A : Type} (compare : A -> A -> Z) (l : list A) : list A :=
  match l with
  | x :: rest => insertBy compare x (sortBy compare rest)
  | [] => []
  end.

Record Suggestion := {
  suggestionDisplayName : string;
  suggestionAddress : StructuredAddress
}.

Definition maharashtra : list ascii := list_ascii_of_string "maharashtra".

Definition isMH (a : Suggestion) : bool :=
  includes (Distance.toLowerCase (list_ascii_of_string (suggestionDisplayName a)))
    maharashtra.

(** The comparator of [autocomplete]. *)
Definition mhFirst (a b : Suggestion) : Z :=
  if isMH a && negb (isMH b) then (-1)%Z
  else if negb (isMH a) && isMH b then 1%Z
  else 0%Z.

Definition enhancedQuery (query : string) : string :=
  if includes (list_ascii_of_string query) (list_ascii_of_string "Maharashtra")
  then query
  else String.append query ", Maharashtra".

(** [response.data.map(...)]: the callback throws at the first place
    without an address. *)
Fixpoint suggestions (data : list Place) : option (list Suggestion) :=
  match data with
  | result :: rest =>
      match placeAddress result, suggestions rest with
      | Some osm, Some results =>
          Some ({| suggestionDisplayName := placeDisplayName result;
                   suggestionAddress := parseAddress osm |} :: results)
      | _, _ => None
      end
  | [] => Some []
  end.

(** [autocomplete], given the reply to the request for [enhancedQuery]. *)
Definition autocomplete (query : string) (reply : Reply (list Place))
    : list Suggestion :=
  match reply with
  | Responded (Some data) =>
      match suggestions data with
      | Some results => sortBy mhFirst results
      | None => []
      end
  | Responded None => []
  | Threw => []
  end.

End GeocodingService.

(** ** The services together *)

Module Backend.
Import SemanticCache.

(** The world outside the backend at one call: what Ollama and Nominatim
    reply to every request, and the time. *)
Record World := {
  ollama : string -> OllamaService.Reply;
  nominatimSearch : string -> GeocodingService.Reply (list GeocodingService.Place);
  nominatimReverse : R -> R -> GeocodingService.Reply GeocodingService.Place;
  clock : Z
}.

(** The collaborators of the cache, as [ollamaService] and
    [geocodingService] implement them. *)
Definition envOf (parseFloat : string -> R) (w : World) : Env :=
  {| generateEmbedding :=
       fun text => OllamaService.generateEmbedding text (ollama w text);
     geocode :=
       fun address =>
         GeocodingService.geocode parseFloat address (nominatimSearch w address);
     reverseGeocode :=
       fun lat0 lng0 =>
         GeocodingService.reverseGeocode lat0 lng0 (nominatimReverse w lat0 lng0);
     now := clock w |}.

End Backend.

(** ** The reverse path on a response that is not checked

    Nothing checks the response of the provider against the types of
    [backend/types].  When the response of [/reverse] has no
    [display_name], the [displayName] of the result of [reverseGeocode] is
    [undefined], and [normalizeAddress] throws on it. *)

Module Unchecked.
Import Distance SemanticCache.

(** The fields of the response of [/reverse] that [reverseGeocode] reads.
    [reverseDisplayName] is [None] when [display_name] is missing or is not
    a string; [reverseAddress] is [None] when [address] is missing. *)
Record ReverseData := {
  reverseDisplayName : option string;
  reverseAddress : option GeocodingService.OsmAddress
}.

(** The object that [reverseGeocode] returns; its [source] is ['api']. *)
Record Result := {
  resultLat : R;
  resultLng : R;
  resultDisplayName : option string;
  resultStructured : StructuredAddress
}.

Definition reverseGeocode (lat0 lng0 : R)
    (reply : GeocodingService.Reply ReverseData) : option Result :=
  match reply with
  | GeocodingService.Responded (Some data) =>
      match reverseAddress data with
      | Some osm =>
          Some {| resultLat := lat0;
                  resultLng := lng0;
                  resultDisplayName := reverseDisplayName data;
                  resultStructured := GeocodingService.parseAddress osm |}
      | None => None
      end
  | GeocodingService.Responded None => None
  | GeocodingService.Threw => None
  end.

(** How a call of [reverseGeocodeWithCache] ends: it returns, or it
    throws. *)
Inductive Outcome :=
| Returned (result : option GeocodingResult) (svc : Service)
| Thrown (svc : Service).

(** [reverseGeocodeWithCache]: the exception of
    [normalizeAddress(result.displayName)] leaves the method before
    [store]. *)
Definition reverseGeocodeWithCache (svc : Service)
    (generateEmbedding : string -> list R)
    (reply : GeocodingService.Reply ReverseData) (now : Z) (lat0 lng0 : R)
    : Outcome :=
  match findNearby svc lat0 lng0 100 with
  | Some nearby => Returned (Some (fromCache nearby)) svc
  | None =>
      match reverseGeocode lat0 lng0 reply with
      | Some result =>
          match resultDisplayName result with
          | Some name =>
              let typed :=
                {| rLat := resultLat result;
                   rLng := resultLng result;
                   rDisplayName := name;
                   rStructured := resultStructured result;
                   source := FromApi |} in
              let normalized := normalizeAddress name in
              let embedding := generateEmbedding normalized in
              Returned (Some typed) (store svc name normalized typed embedding now)
          | None => Thrown svc
          end
      | None => Returned None svc
      end
  end.

End Unchecked.

(** ** backend/server.ts: the routes of the cache *)

Module Server.
Import SemanticCache.

(** A value of a JSON request body, or [undefined] for a missing field. *)
Inductive JsValue :=
| JsUndefined
| JsNull
| JsBool (b : bool)
| JsNumber (x : R)
| JsString (s : string)
| JsObject.

Inductive Body :=
| Result (result : GeocodingResult)
| Error (message : string)
| StatsBody (stats : Stats)
| Message (message : string).

Record Response := { status : nat; body : Body }.

(** [POST /api/geocode] *)
Definition postGeocode (svc : Service) (env : Env) (address : JsValue)
    : Response * Service :=
  match address with
  | JsString s =>
      if String.eqb s "" then
        ({| status := 400; body := Error "Address is required" |}, svc)
      else
        let (result, svc') := geocodeWithCache svc env s in
        match result with
        | Some r => ({| status := 200; body := Result r |}, svc')
        | None => ({| status := 404; body := Error "Address not found" |}, svc')
        end
  | _ => ({| status := 400; body := Error "Address is required" |}, svc)
  end.

(** [POST /api/reverse-geocode]; the exception of the call is caught and
    answered with 500. *)
Definition postReverseGeocode (svc : Service)
    (generateEmbedding : string -> list R)
    (reply : R -> R -> GeocodingService.Reply Unchecked.ReverseData) (now : Z)
    (lat0 lng0 : JsValue) : Response * Service :=
  match lat0, lng0 with
  | JsNumber la, JsNumber lo =>
      match Unchecked.reverseGeocodeWithCache svc generateEmbedding
              (reply la lo) now la lo with
      | Unchecked.Returned (Some r) svc' =>
          ({| status := 200; body := Result r |}, svc')
      | Unchecked.Returned None svc' =>
          ({| status := 404; body := Error "Location not found" |}, svc')
      | Unchecked.Thrown svc' =>
          ({| status := 500; body := Error "Internal server error" |}, svc')
      end
  | _, _ =>
      ({| status := 400;
          body := Error "Valid latitude and longitude are required" |}, svc)
  end.

(** [GET /api/cache/stats] *)
Definition getCacheStats (svc : Service) : Response * Service :=
  ({| status := 200; body := StatsBody (getStats svc) |}, svc).

(** [POST /api/cache/clear] *)
Definition postCacheClear (svc : Service) : Response * Service :=
  ({| status := 200; body := Message "Cache cleared successfully" |}, clear svc).

End Server.

(** * Properties *)

(** ** The similarity engine *)

Module DistanceFacts.
Import Distance.
Local Open Scope R_scope.

(** The dot product and the magnitude of the spec, each a sum of its own. *)
Fixpoint dot (a b : list R) : R :=
  match a, b with
  | x :: a', y :: b' => x * y + dot a' b'
  | _, _ => 0
  end.

Fixpoint sumSquares (a : list R) : R :=
  match a with
  | x :: a' => x * x + sumSquares a'
  | [] => 0
  end.

Definition magnitude (a : list R) : R := sqrt (sumSquares a).

Lemma sumSquares_nonneg (a : list R) : 0 <= sumSquares a.
Proof. induction a as [|x a IH]; simpl; [lra | nra]. Qed.

(** The loop adds the three sums to its accumulators. *)
Lemma cosineLoop_sums (a b : list R) (acc : Sums) :
  length a = length b ->
  cosineLoop a b acc =
    {| dotProduct := dotProduct acc + dot a b;
       mag1 := mag1 acc + sumSquares a;
       mag2 := mag2 acc + sumSquares b |}.
Proof.
  revert b acc. induction a as [|x a IH]; intros [|y b] acc Hlen;
    simpl in Hlen; try discriminate.
  - simpl. destruct acc; simpl. f_equal; lra.
  - simpl. rewrite IH by congruence. simpl. f_equal; lra.
Qed.

(** Cauchy-Schwarz, by induction along both vectors. *)
Lemma dot_square_le (a b : list R) :
  dot a b * dot a b <= sumSquares a * sumSquares b.
Proof.
  revert b. induction a as [|x a IH]; intros [|y b]; simpl.
  - lra.
  - lra.
  - pose proof (sumSquares_nonneg a). nra.
  - specialize (IH b).
    pose proof (sumSquares_nonneg a) as HA.
    pose proof (sumSquares_nonneg b) as HB.
    set (A := sumSquares a) in *. set (B := sumSquares b) in *.
    set (D := dot a b) in *.
    assert (Hmix : 2 * (x * y * D) <= x * x * B + y * y * A).
    { destruct (Req_dec A 0) as [HA0 | HA0].
      - assert (HD : D = 0).
        { apply Rsqr_0_uniq. unfold Rsqr. rewrite HA0, Rmult_0_l in IH.
          pose proof (Rle_0_sqr D) as H0. unfold Rsqr in H0. lra. }
        rewrite HD, HA0, !Rmult_0_r, Rplus_0_r.
        apply Rmult_le_pos; [apply Rle_0_sqr | exact HB].
      - assert (HApos : 0 < A) by lra.
        pose proof (Rle_0_sqr (A * y - x * D)) as H1. unfold Rsqr in H1.
        assert (H2 : 0 <= x * x * (A * B - D * D))
          by (apply Rmult_le_pos; [apply Rle_0_sqr | lra]).
        apply Rmult_le_reg_l with A; [exact HApos |].
        replace (A * (x * x * B + y * y * A))
          with ((A * y - x * D) * (A * y - x * D) + x * x * (A * B - D * D)
                + A * (2 * (x * y * D))) by ring.
        lra. }
    replace ((x * y + D) * (x * y + D))
      with (x * x * (y * y) + 2 * (x * y * D) + D * D) by ring.
    replace ((x * x + A) * (y * y + B))
      with (x * x * (y * y) + (x * x * B + y * y * A) + A * B) by ring.
    lra.
Qed.

Lemma cosineSimilarity_value (a b : list R) :
  length a = length b -> magnitude a <> 0 -> magnitude b <> 0 ->
  cosineSimilarity a b = dot a b / (magnitude a * magnitude b).
Proof.
  intros Hlen Ha Hb. unfold cosineSimilarity.
  rewrite Hlen, Nat.eqb_refl. simpl negb. cbv iota.
  rewrite cosineLoop_sums by exact Hlen. simpl.
  rewrite !Rplus_0_l. fold (magnitude a) (magnitude b).
  apply Reqb_false in Ha. apply Reqb_false in Hb. rewrite Ha, Hb. reflexivity.
Qed.

Lemma cosineSimilarity_degenerate (a b : list R) :
  length a <> length b \/ magnitude a = 0 \/ magnitude b = 0 ->
  cosineSimilarity a b = 0.
Proof.
  intros H. unfold cosineSimilarity.
  destruct (Nat.eqb_spec (length a) (length b)) as [Hlen | Hlen]; [|reflexivity].
  simpl negb. cbv iota.
  rewrite cosineLoop_sums by exact Hlen. simpl.
  rewrite !Rplus_0_l. fold (magnitude a) (magnitude b).
  destruct H as [H | [H | H]]; [contradiction | |].
  - apply Reqb_true in H. rewrite H. reflexivity.
  - apply Reqb_true in H. rewrite H, orb_true_r. reflexivity.
Qed.

Lemma cosineSimilarity_bounds (a b : list R) : -1 <= cosineSimilarity a b <= 1.
Proof.
  destruct (Nat.eq_dec (length a) (length b)) as [Hlen | Hlen];
    [| rewrite cosineSimilarity_degenerate by tauto; lra].
  destruct (Req_dec (magnitude a) 0) as [Ha | Ha];
    [rewrite cosineSimilarity_degenerate by tauto; lra |].
  destruct (Req_dec (magnitude b) 0) as [Hb | Hb];
    [rewrite cosineSimilarity_degenerate by tauto; lra |].
  rewrite cosineSimilarity_value by assumption.
  pose proof (dot_square_le a b) as Hcs.
  pose proof (sqrt_pos (sumSquares a)) as Hpa.
  pose proof (sqrt_pos (sumSquares b)) as Hpb.
  pose proof (sqrt_sqrt _ (sumSquares_nonneg a)) as Hsa.
  pose proof (sqrt_sqrt _ (sumSquares_nonneg b)) as Hsb.
  unfold magnitude in *.
  set (p := sqrt (sumSquares a)) in *. set (q := sqrt (sumSquares b)) in *.
  assert (Hp : 0 < p) by lra. assert (Hq : 0 < q) by lra.
  assert (Hpq : 0 < p * q) by nra.
  assert (Hsq : dot a b * dot a b <= (p * q) * (p * q)).
  { replace ((p * q) * (p * q)) with ((p * p) * (q * q)) by ring.
    rewrite Hsa, Hsb. exact Hcs. }
  assert (Hd : - (p * q) <= dot a b <= p * q) by nra.
  split.
  - apply Rmult_le_reg_r with (p * q); [exact Hpq |].
    unfold Rdiv. rewrite Rmult_assoc, Rinv_l by lra. lra.
  - apply Rmult_le_reg_r with (p * q); [exact Hpq |].
    unfold Rdiv. rewrite Rmult_assoc, Rinv_l by lra. lra.
Qed.

Lemma cosineSimilarity_empty (b : list R) : cosineSimilarity [] b = 0.
Proof.
  apply cosineSimilarity_degenerate.
  destruct b; [right; left | left; discriminate].
  unfold magnitude. simpl. apply sqrt_0.
Qed.

Lemma cosineSimilarity_unit : cosineSimilarity [1] [1] = 1.
Proof.
  assert (Hm : magnitude [1] = 1).
  { unfold magnitude. simpl. replace (1 * 1 + 0) with 1 by ring. apply sqrt_1. }
  rewrite cosineSimilarity_value; rewrite ?Hm; [| reflexivity | lra | lra].
  simpl. field.
Qed.

(** On the equator, two points whose longitudes differ by the angle [d]
    (in radians) are [6371000 * d] metres apart. *)
Lemma haversineDistance_equator (d : R) :
  0 <= d < PI ->
  haversineDistance 0 0 0 (d * 180 / PI) = 6371000 * d.
Proof.
  intros [Hd0 HdPI]. pose proof PI_RGT_0 as Hpi.
  unfold haversineDistance.
  replace (0 * PI / 180) with 0 by lra.
  replace ((0 - 0) * PI / 180 / 2) with 0 by lra.
  replace ((d * 180 / PI - 0) * PI / 180 / 2) with (d / 2) by (field; lra).
  rewrite sin_0, cos_0.
  replace (0 * 0 + 1 * 1 * sin (d / 2) * sin (d / 2))
    with (sin (d / 2) * sin (d / 2)) by ring.
  assert (Hsin : 0 <= sin (d / 2)) by (apply sin_ge_0; lra).
  assert (Hcos : 0 < cos (d / 2)) by (apply cos_gt_0; lra).
  replace (1 - sin (d / 2) * sin (d / 2)) with (cos (d / 2) * cos (d / 2)).
  2:{ pose proof (sin2_cos2 (d / 2)) as H. unfold Rsqr in H. lra. }
  rewrite !sqrt_square by lra.
  unfold atan2. destruct (Rlt_dec 0 (cos (d / 2))) as [_ | Hn]; [| lra].
  change (sin (d / 2) / cos (d / 2)) with (tan (d / 2)).
  rewrite atan_tan by lra. lra.
Qed.


(** *** More on [haversineDistance] *)

(** The value of the variable [a] of [haversineDistance]. *)
Definition haversineA (lat1 lng1 lat2 lng2 : R) : R :=
  sin ((lat2 - lat1) * PI / 180 / 2) * sin ((lat2 - lat1) * PI / 180 / 2) +
  cos (lat1 * PI / 180) * cos (lat2 * PI / 180)
  * sin ((lng2 - lng1) * PI / 180 / 2) * sin ((lng2 - lng1) * PI / 180 / 2).

Lemma haversineDistance_a (lat1 lng1 lat2 lng2 : R) :
  haversineDistance lat1 lng1 lat2 lng2 =
  6371000 * (2 * atan2 (sqrt (haversineA lat1 lng1 lat2 lng2))
                       (sqrt (1 - haversineA lat1 lng1 lat2 lng2))).
Proof. reflexivity. Qed.

Lemma sin_sqr_neg (x y : R) : y = - x -> sin y * sin y = sin x * sin x.
Proof. intros ->. rewrite sin_neg. ring. Qed.

Lemma haversineA_sym (lat1 lng1 lat2 lng2 : R) :
  haversineA lat1 lng1 lat2 lng2 = haversineA lat2 lng2 lat1 lng1.
Proof.
  unfold haversineA.
  rewrite (sin_sqr_neg ((lat1 - lat2) * PI / 180 / 2)
             ((lat2 - lat1) * PI / 180 / 2)) by lra.
  rewrite !Rmult_assoc.
  rewrite (sin_sqr_neg ((lng1 - lng2) * PI / 180 / 2)
             ((lng2 - lng1) * PI / 180 / 2)) by lra.
  ring.
Qed.

Lemma sin_sqr_half (x : R) : sin (x / 2) * sin (x / 2) = (1 - cos x) / 2.
Proof.
  replace x with (2 * (x / 2)) at 3 by lra. rewrite cos_2a_sin. lra.
Qed.

Lemma sin_sqr_le_1 (x : R) : 0 <= sin x * sin x <= 1.
Proof.
  pose proof (sin2_cos2 x) as H. unfold Rsqr in H.
  pose proof (Rle_0_sqr (sin x)) as Hs. pose proof (Rle_0_sqr (cos x)) as Hc.
  unfold Rsqr in Hs, Hc. lra.
Qed.

(** For latitudes between the poles [a] is within [0, 1]. *)
Lemma haversineA_range (lat1 lng1 lat2 lng2 : R) :
  -90 <= lat1 <= 90 -> -90 <= lat2 <= 90 ->
  0 <= haversineA lat1 lng1 lat2 lng2 <= 1.
Proof.
  intros H1 H2. pose proof PI_RGT_0 as Hpi. unfold haversineA.
  set (p1 := lat1 * PI / 180). set (p2 := lat2 * PI / 180).
  assert (Hc1 : 0 <= cos p1) by (apply cos_ge_0; unfold p1; nra).
  assert (Hc2 : 0 <= cos p2) by (apply cos_ge_0; unfold p2; nra).
  assert (Hcc : 0 <= cos p1 * cos p2) by (apply Rmult_le_pos; assumption).
  pose proof (sin_sqr_le_1 ((lng2 - lng1) * PI / 180 / 2)) as Hl.
  set (sl := sin ((lng2 - lng1) * PI / 180 / 2)
             * sin ((lng2 - lng1) * PI / 180 / 2)) in *.
  replace ((lat2 - lat1) * PI / 180 / 2) with ((p2 - p1) / 2)
    by (unfold p1, p2; lra).
  rewrite sin_sqr_half, cos_minus.
  pose proof (COS_bound (p2 + p1)) as Hb. rewrite cos_plus in Hb.
  pose proof (COS_bound (p2 - p1)) as Hm. rewrite cos_minus in Hm.
  replace (cos p1 * cos p2 * sin ((lng2 - lng1) * PI / 180 / 2)
           * sin ((lng2 - lng1) * PI / 180 / 2))
    with (cos p1 * cos p2 * sl) by (unfold sl; ring).
  assert (Hprod : 0 <= cos p1 * cos p2 * sl <= cos p1 * cos p2) by nra.
  lra.
Qed.

(** [2 * atan2 y x] for arguments that are not negative. *)
Lemma atan2_quadrant (y x : R) : 0 <= y -> 0 <= x -> 0 <= atan2 y x <= PI / 2.
Proof.
  intros Hy Hx. pose proof PI_RGT_0 as Hpi. unfold atan2.
  destruct (Rlt_dec 0 x) as [Hpos | Hnpos].
  - pose proof (atan_bound (y / x)) as Hb. split; [| lra].
    destruct (Req_dec y 0) as [-> | Hy0].
    + unfold Rdiv. rewrite Rmult_0_l, atan_0. lra.
    + rewrite <- atan_0. apply Rlt_le, atan_increasing.
      apply Rdiv_lt_0_compat; lra.
  - destruct (Rlt_dec x 0) as [Hneg | _]; [lra |].
    destruct (Rlt_dec 0 y) as [_ | _]; [lra |].
    destruct (Rlt_dec y 0) as [Hneg | _]; lra.
Qed.

Lemma haversineDistance_range (lat1 lng1 lat2 lng2 : R) :
  0 <= haversineDistance lat1 lng1 lat2 lng2 <= 6371000 * PI.
Proof.
  rewrite haversineDistance_a.
  pose proof (atan2_quadrant (sqrt (haversineA lat1 lng1 lat2 lng2))
                (sqrt (1 - haversineA lat1 lng1 lat2 lng2))
                (sqrt_pos _) (sqrt_pos _)).
  lra.
Qed.

(** When [a] is the squared sine of an angle [h] under a right angle, the
    central angle [c] is [2 * |h|]. *)
Lemma central_angle (h : R) :
  - (PI / 2) < h < PI / 2 ->
  2 * atan2 (sqrt (sin h * sin h)) (sqrt (1 - sin h * sin h)) = 2 * Rabs h.
Proof.
  intros Hh. pose proof PI_RGT_0 as Hpi.
  assert (Hcos : 0 < cos h) by (apply cos_gt_0; lra).
  replace (1 - sin h * sin h) with (cos h * cos h).
  2:{ pose proof (sin2_cos2 h) as H. unfold Rsqr in H. lra. }
  rewrite (sqrt_square (cos h)) by lra.
  unfold atan2. destruct (Rlt_dec 0 (cos h)) as [_ | Hn]; [| lra].
  f_equal. destruct (Rle_dec 0 h) as [Hpos | Hneg].
  - rewrite Rabs_right by lra.
    rewrite sqrt_square by (apply sin_ge_0; lra).
    change (sin h / cos h) with (tan h). apply atan_tan. lra.
  - rewrite Rabs_left by lra.
    replace (sin h * sin h) with (sin (- h) * sin (- h))
      by (rewrite sin_neg; ring).
    rewrite sqrt_square by (apply sin_ge_0; lra).
    replace (cos h) with (cos (- h)) by apply cos_neg.
    change (sin (- h) / cos (- h)) with (tan (- h)). apply atan_tan. lra.
Qed.

Lemma haversineDistance_meridian (lat1 lat2 lng0 : R) :
  Rabs (lat2 - lat1) < 180 ->
  haversineDistance lat1 lng0 lat2 lng0 =
  6371000 * (Rabs (lat2 - lat1) * PI / 180).
Proof.
  intros Hd. pose proof PI_RGT_0 as Hpi.
  rewrite haversineDistance_a. unfold haversineA.
  replace ((lng0 - lng0) * PI / 180 / 2) with 0 by lra.
  rewrite sin_0, !Rmult_0_r, Rplus_0_r.
  rewrite central_angle.
  - replace ((lat2 - lat1) * PI / 180 / 2) with ((lat2 - lat1) * (PI / 360))
      by lra.
    rewrite Rabs_mult, (Rabs_right (PI / 360)) by lra. lra.
  - apply Rabs_def2 in Hd. nra.
Qed.

Lemma haversineDistance_on_equator (lng1 lng2 : R) :
  Rabs (lng2 - lng1) < 180 ->
  haversineDistance 0 lng1 0 lng2 =
  6371000 * (Rabs (lng2 - lng1) * PI / 180).
Proof.
  intros Hd. pose proof PI_RGT_0 as Hpi.
  rewrite haversineDistance_a. unfold haversineA.
  replace ((0 - 0) * PI / 180 / 2) with 0 by lra.
  replace (0 * PI / 180) with 0 by lra.
  rewrite sin_0, cos_0.
  replace (0 * 0 + 1 * 1 * sin ((lng2 - lng1) * PI / 180 / 2)
                   * sin ((lng2 - lng1) * PI / 180 / 2))
    with (sin ((lng2 - lng1) * PI / 180 / 2)
          * sin ((lng2 - lng1) * PI / 180 / 2)) by ring.
  rewrite central_angle.
  - replace ((lng2 - lng1) * PI / 180 / 2) with ((lng2 - lng1) * (PI / 360))
      by lra.
    rewrite Rabs_mult, (Rabs_right (PI / 360)) by lra. lra.
  - apply Rabs_def2 in Hd. nra.
Qed.

(** *** More on [cosineSimilarity] *)

Lemma dot_comm (a b : list R) : dot a b = dot b a.
Proof.
  revert b. induction a as [|x a IH]; intros [|y b]; simpl; try reflexivity.
  rewrite IH. ring.
Qed.

Lemma dot_self (a : list R) : dot a a = sumSquares a.
Proof. induction a as [|x a IH]; simpl; [reflexivity | rewrite IH; reflexivity]. Qed.

(** [cosineSimilarity] in terms of the three sums, whatever the vectors. *)
Lemma cosineSimilarity_sums (a b : list R) :
  cosineSimilarity a b =
  if negb (length a =? length b)%nat then 0
  else if Reqb (magnitude a) 0 || Reqb (magnitude b) 0 then 0
       else dot a b / (magnitude a * magnitude b).
Proof.
  unfold cosineSimilarity.
  destruct (Nat.eqb_spec (length a) (length b)) as [Hlen | Hlen];
    [| reflexivity].
  simpl negb. cbv iota. rewrite cosineLoop_sums by exact Hlen. simpl.
  rewrite !Rplus_0_l. reflexivity.
Qed.

Lemma cosineSimilarity_comm (a b : list R) :
  cosineSimilarity a b = cosineSimilarity b a.
Proof.
  rewrite !cosineSimilarity_sums.
  rewrite (Nat.eqb_sym (length a)), (orb_comm (Reqb (magnitude a) 0)).
  rewrite dot_comm, (Rmult_comm (magnitude a)). reflexivity.
Qed.

Lemma magnitude_sqr (a : list R) : magnitude a * magnitude a = sumSquares a.
Proof. apply sqrt_sqrt, sumSquares_nonneg. Qed.

Lemma cosineSimilarity_self (a : list R) :
  magnitude a <> 0 -> cosineSimilarity a a = 1.
Proof.
  intros H. rewrite cosineSimilarity_value by (reflexivity || exact H).
  rewrite dot_self, magnitude_sqr. apply Rdiv_diag.
  rewrite <- magnitude_sqr. apply Rmult_integral_contrapositive. tauto.
Qed.

(** The vector [a] stretched by the factor [k]. *)
Definition scale (k : R) (a : list R) : list R := map (Rmult k) a.

Lemma scale_cons (k x : R) (a : list R) : scale k (x :: a) = k * x :: scale k a.
Proof. reflexivity. Qed.

Lemma dot_scale (k : R) (a b : list R) : dot (scale k a) b = k * dot a b.
Proof.
  revert b. induction a as [|x a IH]; intros [|y b];
    rewrite ?scale_cons; cbn [dot scale map]; try lra.
  rewrite IH. ring.
Qed.

Lemma sumSquares_scale (k : R) (a : list R) :
  sumSquares (scale k a) = k * k * sumSquares a.
Proof.
  induction a as [|x a IH]; rewrite ?scale_cons; cbn [sumSquares scale map];
    [lra |].
  rewrite IH. ring.
Qed.

Lemma magnitude_scale (k : R) (a : list R) :
  0 <= k -> magnitude (scale k a) = k * magnitude a.
Proof.
  intros Hk. unfold magnitude. rewrite sumSquares_scale.
  rewrite sqrt_mult by (try apply sumSquares_nonneg; nra).
  rewrite sqrt_square by exact Hk. reflexivity.
Qed.

Lemma cosineSimilarity_scale (k : R) (a b : list R) :
  0 < k -> cosineSimilarity (scale k a) b = cosineSimilarity a b.
Proof.
  intros Hk. rewrite !cosineSimilarity_sums.
  unfold scale at 1. rewrite length_map. fold (scale k a).
  destruct (negb (length a =? length b)%nat); [reflexivity |].
  rewrite magnitude_scale, dot_scale by lra.
  destruct (Req_dec (magnitude a) 0) as [Ha | Ha].
  - rewrite Ha, Rmult_0_r.
    assert (H0 : Reqb 0 0 = true) by (apply Reqb_true; reflexivity).
    rewrite H0. reflexivity.
  - assert (Hka : k * magnitude a <> 0) by (apply Rmult_integral_contrapositive; split; lra).
    apply Reqb_false in Hka. apply Reqb_false in Ha as Ha'. rewrite Hka, Ha'.
    simpl. destruct (Reqb (magnitude b) 0) eqn:Hb; [reflexivity |].
    apply Reqb_false in Hb. field. split; [exact Hb | split; [exact Ha | lra]].
Qed.

End DistanceFacts.

(** ** Matching *)

Module Matching.
Import Distance SemanticCache DistanceFacts.
Local Open Scope R_scope.

Definition similarityTo (queryEmbedding : list R) (e : CacheEntry) : R :=
  cosineSimilarity queryEmbedding (embedding e).

(** An entry is a candidate when its similarity exceeds the threshold. *)
Definition isCandidate (queryEmbedding : list R) (e : CacheEntry) : bool :=
  Rgtb (similarityTo queryEmbedding e) SIMILARITY_THRESHOLD.

(** The great-circle distance between two entries. *)
Definition apart (e best : CacheEntry) : R :=
  haversineDistance (lat e) (lng e) (lat best) (lng best).

(** The selection policy in the words of the spec: a later candidate
    replaces the provisional best when its similarity exceeds the similarity
    of the provisional best and the two are under the distance threshold
    apart. *)
Definition overrides (queryEmbedding : list R) (best e : CacheEntry) : bool :=
  isCandidate queryEmbedding e
  && Rgtb (similarityTo queryEmbedding e) (similarityTo queryEmbedding best)
  && Rltb (apart e best) DISTANCE_THRESHOLD.

Fixpoint refineBest (queryEmbedding : list R) (best : CacheEntry)
    (later : list CacheEntry) : CacheEntry :=
  match later with
  | e :: later' =>
      refineBest queryEmbedding
        (if overrides queryEmbedding best e then e else best) later'
  | [] => best
  end.

(** The first candidate becomes the provisional best; the entries behind it
    refine it. *)
Fixpoint selectBest (queryEmbedding : list R) (entries : list CacheEntry)
    : option CacheEntry :=
  match entries with
  | e :: later =>
      if isCandidate queryEmbedding e
      then Some (refineBest queryEmbedding e later)
      else selectBest queryEmbedding later
  | [] => None
  end.

(** Once there is a provisional best, [bestScore] is its similarity. *)
Lemma fold_findSimilarStep_best q (later : list CacheEntry) (best : CacheEntry) :
  bestMatch
    (fold_left (findSimilarStep q) later
       {| bestMatch := Some best; bestScore := similarityTo q best |})
  = Some (refineBest q best later).
Proof.
  revert best. induction later as [|e later IH]; intros best; [reflexivity|].
  simpl fold_left. simpl refineBest.
  unfold findSimilarStep at 2. simpl bestMatch. simpl bestScore.
  unfold overrides, isCandidate, apart, similarityTo.
  destruct (Rgtb (cosineSimilarity q (embedding e)) SIMILARITY_THRESHOLD);
    [| apply IH].
  destruct (Rltb (haversineDistance (lat e) (lng e) (lat best) (lng best))
              DISTANCE_THRESHOLD);
    [| rewrite andb_false_r; apply IH].
  destruct (Rgtb (cosineSimilarity q (embedding e))
              (cosineSimilarity q (embedding best))); apply IH.
Qed.

Lemma fold_findSimilarStep_none q (entries : list CacheEntry) (score : R) :
  bestMatch
    (fold_left (findSimilarStep q) entries
       {| bestMatch := None; bestScore := score |})
  = selectBest q entries.
Proof.
  revert score. induction entries as [|e later IH]; intros score; [reflexivity|].
  simpl fold_left. simpl selectBest.
  unfold findSimilarStep at 2. simpl bestMatch.
  unfold isCandidate, similarityTo.
  destruct (Rgtb (cosineSimilarity q (embedding e)) SIMILARITY_THRESHOLD).
  - apply fold_findSimilarStep_best.
  - apply IH.
Qed.

Lemma findSimilar_selectBest svc key q :
  findSimilar svc key q = selectBest q (cacheEntries svc).
Proof. apply fold_findSimilarStep_none. Qed.

Lemma selectBest_None q (entries : list CacheEntry) :
  selectBest q entries = None <->
  Forall (fun e => isCandidate q e = false) entries.
Proof.
  induction entries as [|e later IH]; simpl.
  - split; [constructor | reflexivity].
  - destruct (isCandidate q e) eqn:Hc.
    + split; [discriminate |]. intros H. inversion H; congruence.
    + rewrite IH. split; [intros H; constructor; assumption |].
      intros H. inversion H; assumption.
Qed.

(** A candidate that is not under the distance threshold from the
    provisional best leaves it in place. *)
Lemma overrides_far q (best e : CacheEntry) :
  DISTANCE_THRESHOLD <= apart e best -> overrides q best e = false.
Proof.
  intros H. unfold overrides. apply Rltb_false in H. rewrite H.
  apply andb_false_r.
Qed.

Lemma findSimilarStep_far q (best e : CacheEntry) (score : R) :
  DISTANCE_THRESHOLD <= apart e best ->
  findSimilarStep q {| bestMatch := Some best; bestScore := score |} e
  = {| bestMatch := Some best; bestScore := score |}.
Proof.
  intros H. unfold findSimilarStep. simpl.
  apply Rltb_false in H. unfold apart in H. rewrite H. simpl.
  destruct (Rgtb _ SIMILARITY_THRESHOLD); reflexivity.
Qed.

(** *** findNearby *)

Definition within (lat0 lng0 radiusMeters : R) (e : CacheEntry) : Prop :=
  haversineDistance lat0 lng0 (lat e) (lng e) < radiusMeters.

Lemma findNearbyIn_Some (entries : list CacheEntry) lat0 lng0 radius e :
  findNearbyIn entries lat0 lng0 radius = Some e <->
  exists before after,
    entries = before ++ e :: after /\
    Forall (fun x => ~ within lat0 lng0 radius x) before /\
    within lat0 lng0 radius e.
Proof.
  induction entries as [|x rest IH]; simpl.
  - split; [discriminate |]. intros (before & after & H & _).
    destruct before; discriminate.
  - destruct (Rltb _ radius) eqn:Hd.
    + apply Rltb_true in Hd. split.
      * intros [= <-]. exists [], rest. repeat split; [constructor | exact Hd].
      * intros (before & after & Heq & Hbefore & He).
        destruct before as [|y before]; simpl in Heq.
        -- congruence.
        -- injection Heq as <- _. inversion Hbefore; subst. contradiction.
    + apply Rltb_false in Hd. rewrite IH. split.
      * intros (before & after & -> & Hbefore & He).
        exists (x :: before), after. repeat split; [| exact He].
        constructor; [unfold within; lra | exact Hbefore].
      * intros (before & after & Heq & Hbefore & He).
        destruct before as [|y before]; simpl in Heq.
        -- injection Heq as -> _. unfold within in He. lra.
        -- injection Heq as <- ->. inversion Hbefore; subst.
           exists before, after. auto.
Qed.

Lemma findNearbyIn_None (entries : list CacheEntry) lat0 lng0 radius :
  findNearbyIn entries lat0 lng0 radius = None <->
  Forall (fun x => ~ within lat0 lng0 radius x) entries.
Proof.
  induction entries as [|x rest IH]; simpl.
  - split; [constructor | reflexivity].
  - destruct (Rltb _ radius) eqn:Hd.
    + apply Rltb_true in Hd. split; [discriminate |].
      intros H. inversion H; subst. contradiction.
    + apply Rltb_false in Hd. rewrite IH. split.
      * intros H. constructor; [unfold within; lra | exact H].
      * intros H. inversion H; assumption.
Qed.

(** *** Time stamps *)

Definition retime (t : Z) (e : CacheEntry) : CacheEntry :=
  {| address := address e;
     normalized := normalized e;
     lat := lat e;
     lng := lng e;
     structured := structured e;
     displayName := displayName e;
     embedding := embedding e;
     timestamp := t |}.

(** Two entries that differ at most in their time stamps. *)
Definition sameButTimestamp (e1 e2 : CacheEntry) : Prop :=
  retime 0 e1 = retime 0 e2.

Lemma sameButTimestamp_fields e1 e2 :
  sameButTimestamp e1 e2 ->
  lat e1 = lat e2 /\ lng e1 = lng e2 /\ embedding e1 = embedding e2 /\
  fromCache e1 = fromCache e2.
Proof.
  unfold sameButTimestamp, retime, fromCache. intros [= ? ? ? ? ? ? ?].
  repeat split; try assumption. congruence.
Qed.

Lemma overrides_retimed q b1 b2 e1 e2 :
  sameButTimestamp b1 b2 -> sameButTimestamp e1 e2 ->
  overrides q b1 e1 = overrides q b2 e2.
Proof.
  intros Hb He.
  apply sameButTimestamp_fields in Hb as (Hb1 & Hb2 & Hb3 & _).
  apply sameButTimestamp_fields in He as (He1 & He2 & He3 & _).
  unfold overrides, isCandidate, similarityTo, apart.
  rewrite Hb1, Hb2, Hb3, He1, He2, He3. reflexivity.
Qed.

Lemma refineBest_retimed q (l1 l2 : list CacheEntry) :
  Forall2 sameButTimestamp l1 l2 ->
  forall b1 b2, sameButTimestamp b1 b2 ->
  sameButTimestamp (refineBest q b1 l1) (refineBest q b2 l2).
Proof.
  induction 1 as [|e1 e2 l1 l2 He Hl IH]; intros b1 b2 Hb; simpl; [exact Hb|].
  apply IH. rewrite (overrides_retimed q b1 b2 e1 e2 Hb He).
  destruct (overrides q b2 e2); assumption.
Qed.

Lemma selectBest_retimed q (l1 l2 : list CacheEntry) :
  Forall2 sameButTimestamp l1 l2 ->
  option_Forall2 sameButTimestamp (selectBest q l1) (selectBest q l2).
Proof.
  induction 1 as [|e1 e2 l1 l2 He Hl IH]; simpl; [constructor|].
  assert (Hc : isCandidate q e1 = isCandidate q e2).
  { apply sameButTimestamp_fields in He as (_ & _ & He3 & _).
    unfold isCandidate, similarityTo. rewrite He3. reflexivity. }
  rewrite Hc. destruct (isCandidate q e2); [| exact IH].
  constructor. apply refineBest_retimed; assumption.
Qed.

Lemma findNearbyIn_retimed (l1 l2 : list CacheEntry) lat0 lng0 radius :
  Forall2 sameButTimestamp l1 l2 ->
  option_Forall2 sameButTimestamp
    (findNearbyIn l1 lat0 lng0 radius) (findNearbyIn l2 lat0 lng0 radius).
Proof.
  induction 1 as [|e1 e2 l1 l2 He Hl IH]; simpl; [constructor|].
  pose proof (sameButTimestamp_fields _ _ He) as (H1 & H2 & _ & _).
  rewrite H1, H2. destruct (Rltb _ radius); [constructor; exact He | exact IH].
Qed.

End Matching.

(** ** The bounded store *)

Module Store.
Import Distance SemanticCache DistanceFacts Matching.

(** The entry that [store] builds from its arguments. *)
Definition newEntry (address normalized : string) (result : GeocodingResult)
    (embedding : list R) (now : Z) : CacheEntry :=
  {| address := address;
     normalized := normalized;
     lat := rLat result;
     lng := rLng result;
     structured := rStructured result;
     displayName := rDisplayName result;
     embedding := embedding;
     timestamp := now |}.

(** The arguments of one call of [store]. *)
Record StoreCall := {
  callAddress : string;
  callNormalized : string;
  callResult : GeocodingResult;
  callEmbedding : list R;
  callNow : Z
}.

Definition entryOf (c : StoreCall) : CacheEntry :=
  newEntry (callAddress c) (callNormalized c) (callResult c) (callEmbedding c)
    (callNow c).

Definition storeCall (svc : Service) (c : StoreCall) : Service :=
  store svc (callAddress c) (callNormalized c) (callResult c) (callEmbedding c)
    (callNow c).

(** A sequence of insertions into an empty cache. *)
Definition storeAll (calls : list StoreCall) : Service :=
  fold_left storeCall calls create.

(** Does the insertion of one more entry evict? *)
Definition evicts (svc : Service) : bool :=
  (1000 <? length (cacheEntries svc) + 1)%nat.

Lemma store_cacheEntries svc a n r emb t :
  cacheEntries (store svc a n r emb t) =
  if evicts svc
  then tl (cacheEntries svc ++ [newEntry a n r emb t])
  else cacheEntries svc ++ [newEntry a n r emb t].
Proof.
  unfold store, evicts. cbv zeta. fold (newEntry a n r emb t).
  rewrite length_app. simpl length.
  destruct (1000 <? length (cacheEntries svc) + 1)%nat; [| reflexivity].
  destruct (cacheEntries svc ++ [newEntry a n r emb t]); reflexivity.
Qed.

Lemma store_cache svc a n r emb t :
  cache (store svc a n r emb t) =
  let cache1 := NodeCache.set t (keyOf n) (newEntry a n r emb t) (cache svc) in
  if evicts svc
  then match cacheEntries svc ++ [newEntry a n r emb t] with
       | removed :: _ => NodeCache.del (entryKey removed) cache1
       | [] => cache1
       end
  else cache1.
Proof.
  unfold store, evicts. cbv zeta. fold (newEntry a n r emb t).
  rewrite length_app. simpl length.
  destruct (1000 <? length (cacheEntries svc) + 1)%nat; [| reflexivity].
  destruct (cacheEntries svc ++ [newEntry a n r emb t]); reflexivity.
Qed.

Lemma store_length svc a n r emb t :
  (length (cacheEntries svc) <= 1000)%nat ->
  (length (cacheEntries (store svc a n r emb t)) <= 1000)%nat.
Proof.
  intros H. rewrite store_cacheEntries. unfold evicts.
  destruct (Nat.ltb_spec 1000 (length (cacheEntries svc) + 1)) as [Hlt | Hge].
  - destruct (cacheEntries svc) as [|x l]; simpl in *; [lia |].
    rewrite length_app. simpl. lia.
  - rewrite length_app. simpl. lia.
Qed.

(** Within the capacity, the entries after an insertion are the last 1000
    of the old entries followed by the new one. *)
Lemma store_drop svc a n r emb t :
  (length (cacheEntries svc) <= 1000)%nat ->
  cacheEntries (store svc a n r emb t) =
  drop (length (cacheEntries svc) + 1 - 1000)
    (cacheEntries svc ++ [newEntry a n r emb t]).
Proof.
  intros H. rewrite store_cacheEntries. unfold evicts.
  destruct (Nat.ltb_spec 1000 (length (cacheEntries svc) + 1)) as [Hlt | Hge].
  - replace (length (cacheEntries svc) + 1 - 1000)%nat with 1%nat by lia.
    destruct (cacheEntries svc ++ _); reflexivity.
  - replace (length (cacheEntries svc) + 1 - 1000)%nat with 0%nat by lia.
    reflexivity.
Qed.

Lemma fold_storeCall_entries (calls : list StoreCall) svc :
  (length (cacheEntries svc) <= 1000)%nat ->
  cacheEntries (fold_left storeCall calls svc) =
  drop (length (cacheEntries svc) + length calls - 1000)
    (cacheEntries svc ++ map entryOf calls).
Proof.
  revert svc. induction calls as [|c calls IH]; intros svc Hlen.
  - simpl. rewrite app_nil_r, Nat.add_0_r.
    replace (length (cacheEntries svc) - 1000)%nat with 0%nat by lia.
    reflexivity.
  - simpl fold_left. rewrite IH by (apply store_length; exact Hlen).
    unfold storeCall at 1 2. rewrite store_drop by exact Hlen.
    fold (entryOf c).
    set (l1 := cacheEntries svc ++ [entryOf c]).
    set (k := (length (cacheEntries svc) + 1 - 1000)%nat).
    assert (Hl1 : length l1 = (length (cacheEntries svc) + 1)%nat)
      by (unfold l1; rewrite length_app; reflexivity).
    replace (cacheEntries svc ++ map entryOf (c :: calls))
      with (l1 ++ map entryOf calls)
      by (unfold l1; rewrite <- app_assoc; reflexivity).
    rewrite length_drop, Hl1.
    rewrite <- (drop_app_le l1 (map entryOf calls) k) by lia.
    rewrite drop_drop. f_equal. simpl length. lia.
Qed.

Lemma storeAll_cacheEntries (calls : list StoreCall) :
  cacheEntries (storeAll calls) =
  drop (length calls - 1000) (map entryOf calls).
Proof.
  unfold storeAll. rewrite fold_storeCall_entries by (simpl; lia).
  reflexivity.
Qed.

(** *** Reachable states *)

Lemma step_length svc ev :
  (length (cacheEntries svc) <= 1000)%nat ->
  (length (cacheEntries (step svc ev)) <= 1000)%nat.
Proof.
  intros H. destruct ev as [env a | env la lo | | | t]; simpl.
  - unfold geocodeWithCache.
    destruct (findSimilar _ _ _); [exact H |].
    destruct (geocode env a); [apply store_length |]; exact H.
  - unfold reverseGeocodeWithCache.
    destruct (findNearby _ _ _ _); [exact H |].
    destruct (reverseGeocode env la lo); [apply store_length |]; exact H.
  - exact H.
  - lia.
  - exact H.
Qed.

Lemma fold_step_length (evs : list Event) svc :
  (length (cacheEntries svc) <= 1000)%nat ->
  (length (cacheEntries (fold_left step evs svc)) <= 1000)%nat.
Proof.
  revert svc. induction evs as [|ev evs IH]; intros svc H; [exact H |].
  simpl. apply IH, step_length, H.
Qed.

(** The counters of the keyed store. *)
Definition uncounted (svc : Service) : Prop :=
  NodeCache.hits (cache svc) = 0%nat /\ NodeCache.misses (cache svc) = 0%nat.

Lemma store_uncounted svc a n r emb t :
  uncounted svc -> uncounted (store svc a n r emb t).
Proof.
  unfold uncounted. rewrite store_cache. cbv zeta.
  destruct (evicts svc); [destruct (cacheEntries svc ++ _) |]; simpl; tauto.
Qed.

Lemma step_uncounted svc ev : uncounted svc -> uncounted (step svc ev).
Proof.
  intros H. destruct ev as [env a | env la lo | | | t]; simpl.
  - unfold geocodeWithCache.
    destruct (findSimilar _ _ _); [exact H |].
    destruct (geocode env a); [apply store_uncounted |]; exact H.
  - unfold reverseGeocodeWithCache.
    destruct (findNearby _ _ _ _); [exact H |].
    destruct (reverseGeocode env la lo); [apply store_uncounted |]; exact H.
  - exact H.
  - split; reflexivity.
  - exact H.
Qed.

Lemma fold_step_uncounted (evs : list Event) svc :
  uncounted svc -> uncounted (fold_left step evs svc).
Proof.
  revert svc. induction evs as [|ev evs IH]; intros svc H; [exact H |].
  simpl. apply IH, step_uncounted, H.
Qed.

(** *** The keyed store under [store] *)

Lemma store_data_kept svc a n r emb t :
  evicts svc = false ->
  NodeCache.data (cache (store svc a n r emb t)) =
  <[keyOf n := (NodeCache.livetime (cache svc) t, newEntry a n r emb t)]>
    (NodeCache.data (cache svc)).
Proof. intros H. rewrite store_cache. cbv zeta. rewrite H. reflexivity. Qed.

Lemma store_evicting svc a n r emb t :
  evicts svc = true ->
  exists oldest rest,
    cacheEntries svc = oldest :: rest /\
    cacheEntries (store svc a n r emb t) = rest ++ [newEntry a n r emb t] /\
    NodeCache.data (cache (store svc a n r emb t)) =
    delete (entryKey oldest)
      (<[keyOf n := (NodeCache.livetime (cache svc) t, newEntry a n r emb t)]>
         (NodeCache.data (cache svc))).
Proof.
  intros H. rewrite store_cacheEntries, store_cache. cbv zeta. rewrite H.
  destruct (cacheEntries svc) as [|oldest rest] eqn:Hentries.
  - unfold evicts in H. rewrite Hentries in H. discriminate H.
  - exists oldest, rest. repeat split; reflexivity.
Qed.

Lemma evicts_at_capacity svc :
  length (cacheEntries svc) = 1000%nat -> evicts svc = true.
Proof. intros H. unfold evicts. rewrite H. reflexivity. Qed.

(** *** A reachable state with duplicate keys

    With an embedding service that answers the empty vector nothing is ever
    similar, so every address is stored anew. *)

Lemma findSimilar_empty_query svc key : findSimilar svc key [] = None.
Proof.
  rewrite findSimilar_selectBest. apply selectBest_None.
  apply List.Forall_forall. intros e _.
  unfold isCandidate, similarityTo, Rgtb. rewrite cosineSimilarity_empty.
  apply Rltb_false. unfold SIMILARITY_THRESHOLD. lra.
Qed.

Lemma geocodeWithCache_stores svc env a r :
  generateEmbedding env (normalizeAddress a) = [] ->
  geocode env a = Some r ->
  geocodeWithCache svc env a =
  (Some r, store svc a (normalizeAddress a) r [] (now env)).
Proof.
  intros Hemb Hgeo. unfold geocodeWithCache. cbv zeta.
  rewrite Hemb, findSimilar_empty_query, Hgeo. reflexivity.
Qed.

Definition somewhere : GeocodingResult :=
  {| rLat := 0%R;
     rLng := 0%R;
     rDisplayName := "Pune";
     rStructured :=
       {| building := None; street := None; area := None; city := Some "Pune";
          state := None; pincode := None; country := None |};
     source := FromApi |}.

Definition dupEnv (i : nat) : Env :=
  {| generateEmbedding := fun _ => [];
     geocode := fun _ => Some somewhere;
     reverseGeocode := fun _ _ => None;
     now := Z.of_nat i |}.

Definition dupCall (i : nat) : StoreCall :=
  {| callAddress := ".";
     callNormalized := normalizeAddress ".";
     callResult := somewhere;
     callEmbedding := [];
     callNow := Z.of_nat i |}.

(** A thousand requests for the address ["."], one per millisecond. *)
Definition dupEvents : list Event :=
  map (fun i => Geocode (dupEnv i) ".") (seq 0 1000).

Definition dupState : Service := run dupEvents.

(** One more request, for another address. *)
Definition dupAfter : Service := step dupState (Geocode (dupEnv 1000) "y").

(** The newest of the thousand entries. *)
Definition dupSurvivor : CacheEntry := entryOf (dupCall 999).

Lemma fold_dupEvents (idxs : list nat) svc :
  fold_left step (map (fun i => Geocode (dupEnv i) ".") idxs) svc =
  fold_left storeCall (map dupCall idxs) svc.
Proof.
  revert svc. induction idxs as [|i idxs IH]; intros svc; [reflexivity |].
  simpl. rewrite <- IH. f_equal.
  rewrite (geocodeWithCache_stores svc (dupEnv i) "." somewhere);
    reflexivity.
Qed.

Lemma dupState_storeAll : dupState = storeAll (map dupCall (seq 0 1000)).
Proof. apply fold_dupEvents. Qed.

Lemma dupState_cacheEntries :
  cacheEntries dupState = map entryOf (map dupCall (seq 0 1000)).
Proof.
  rewrite dupState_storeAll, storeAll_cacheEntries.
  rewrite !length_map, length_seq. reflexivity.
Qed.

Lemma dupState_length : length (cacheEntries dupState) = 1000%nat.
Proof. rewrite dupState_cacheEntries, !length_map, length_seq. reflexivity. Qed.

Lemma dupState_bound :
  exists expiry,
    NodeCache.data (cache dupState) !! entryKey dupSurvivor =
    Some (expiry, dupSurvivor).
Proof.
  rewrite dupState_storeAll. unfold storeAll.
  assert (Hseq : seq 0 1000 = seq 0 999 ++ [999%nat]) by exact (seq_S 999 0).
  rewrite Hseq, map_app, fold_left_app.
  set (before := fold_left storeCall (map dupCall (seq 0 999)) create).
  change (fold_left storeCall (map dupCall [999%nat]) before)
    with (storeCall before (dupCall 999)).
  assert (Hlen : length (cacheEntries before) = 999%nat).
  { unfold before. rewrite fold_storeCall_entries by (simpl; lia).
    change (cacheEntries create) with (@nil CacheEntry).
    rewrite length_drop, length_app, !length_map, length_seq.
    change (length (@nil CacheEntry)) with 0%nat. lia. }
  assert (Hkeep : evicts before = false)
    by (unfold evicts; rewrite Hlen; reflexivity).
  unfold storeCall. rewrite store_data_kept by exact Hkeep.
  eexists. apply lookup_insert_eq.
Qed.

Lemma cons_inj {A : Type} (a b : A) (l m : list A) :
  a :: l = b :: m -> a = b /\ l = m.
Proof. intros [= -> ->]. split; reflexivity. Qed.

Lemma dupState_oldest :
  cacheEntries dupState =
  entryOf (dupCall 0) :: map entryOf (map dupCall (seq 1 999)).
Proof. rewrite dupState_cacheEntries. reflexivity. Qed.

Lemma dupAfter_store :
  dupAfter = store dupState "y" (normalizeAddress "y") somewhere [] 1000.
Proof.
  unfold dupAfter.
  change (step dupState (Geocode (dupEnv 1000) "y"))
    with (snd (geocodeWithCache dupState (dupEnv 1000) "y")).
  rewrite (geocodeWithCache_stores dupState (dupEnv 1000) "y" somewhere);
    reflexivity.
Qed.

Lemma dupAfter_unbound :
  NodeCache.data (cache dupAfter) !! entryKey dupSurvivor = None.
Proof.
  rewrite dupAfter_store.
  destruct (store_evicting dupState "y" (normalizeAddress "y") somewhere [] 1000)
    as (oldest & rest & Hentries & _ & ->);
    [apply evicts_at_capacity, dupState_length |].
  rewrite dupState_oldest in Hentries.
  apply cons_inj in Hentries as [<- _].
  apply lookup_delete_eq.
Qed.

Lemma dupAfter_survivor : In dupSurvivor (cacheEntries dupAfter).
Proof.
  rewrite dupAfter_store.
  destruct (store_evicting dupState "y" (normalizeAddress "y") somewhere [] 1000)
    as (oldest & rest & Hentries & -> & _);
    [apply evicts_at_capacity, dupState_length |].
  rewrite dupState_oldest in Hentries.
  apply cons_inj in Hentries as [_ <-].
  apply in_or_app. left. unfold dupSurvivor.
  apply (in_map entryOf), (in_map dupCall), in_seq. lia.
Qed.

End Store.

(** ** The normalizer *)

Module Normalizer.
Import Distance.

(** The word characters that lower-casing leaves alone: [[a-z0-9_]]. *)
Definition isLowerWord (c : ascii) : bool :=
  inRange 97 122 c || inRange 48 57 c || (code c =? 95)%N.

(** What the normalizer lets through: a lower-case word character or the
    space U+0020. *)
Definition isClean (c : ascii) : bool := isLowerWord c || Ascii.eqb c space.

Definition isAlphanumeric (c : ascii) : bool :=
  inRange 65 90 c || inRange 97 122 c || inRange 48 57 c.

Ltac each_char c :=
  destruct c as [[] [] [] [] [] [] [] []]; vm_compute;
  intuition (discriminate || congruence).

Lemma isLowerWord_facts c :
  isLowerWord c = true ->
  isWord c = true /\ isSpace c = false /\ toLowerChar c = c /\ c <> space.
Proof. each_char c. Qed.

Lemma toLowerChar_word c : isWord c = true -> isLowerWord (toLowerChar c) = true.
Proof. each_char c. Qed.

Lemma toLowerChar_space c : isSpace (toLowerChar c) = isSpace c.
Proof. each_char c. Qed.

Lemma toLowerChar_isWord c : isWord (toLowerChar c) = isWord c.
Proof. each_char c. Qed.

Lemma isClean_cases c :
  isClean c = true -> isLowerWord c = true \/ c = space.
Proof.
  unfold isClean. intros [H | H]%orb_true_iff; [left; exact H | right].
  apply Ascii.eqb_eq, H.
Qed.

Lemma isClean_kept c : isClean c = true -> isWord c || isSpace c = true.
Proof.
  intros [H | ->]%isClean_cases; [| reflexivity].
  apply isLowerWord_facts in H as (-> & _). reflexivity.
Qed.

Lemma isClean_lower c : isClean c = true -> toLowerChar c = c.
Proof.
  intros [H | ->]%isClean_cases; [| reflexivity].
  apply isLowerWord_facts in H. tauto.
Qed.

(** The pipeline on some addresses. *)
Example normalizeAddress_street :
  normalizeAddress "  12 MG Rd,   Pune MH " = "12 mg road pune maharashtra".
Proof. reflexivity. Qed.

Example normalizeAddress_whole_words :
  normalizeAddress "St. Mary Ave, Mahal rd-rd" = "street mary avenue mahal rdrd".
Proof. reflexivity. Qed.

(** *** Every step keeps the code units within bounds *)

Lemma trimStart_Forall (P : ascii -> Prop) s : Forall P s -> Forall P (trimStart s).
Proof.
  induction 1 as [|c s Hc Hs IH]; simpl; [constructor |].
  destruct (isSpace c); [exact IH | constructor; assumption].
Qed.

Lemma trimEnd_Forall (P : ascii -> Prop) s : Forall P s -> Forall P (trimEnd s).
Proof.
  induction 1 as [|c s Hc Hs IH]; simpl; [constructor |].
  destruct (trimEnd s) as [|d t].
  - destruct (isSpace c); repeat constructor; assumption.
  - constructor; assumption.
Qed.

(** After lower-casing, a word character is a lower-case one. *)
Definition lowered (c : ascii) : Prop :=
  isWord c = true -> isLowerWord c = true.

Lemma toLowerCase_lowered s : Forall lowered (toLowerCase s).
Proof.
  induction s as [|c s IH]; simpl; constructor; [| exact IH].
  intros H. rewrite toLowerChar_isWord in H. apply toLowerChar_word, H.
Qed.

(** After the collapse, the only white space left is U+0020. *)
Definition spaced (c : ascii) : Prop := isSpace c = true -> c = space.

Lemma collapseFrom_bounds b s :
  Forall lowered s ->
  Forall (fun c => lowered c /\ spaced c) (collapseFrom b s).
Proof.
  intros H. revert b. induction H as [|c s Hc Hs IH]; intros b; simpl;
    [constructor |].
  destruct (isSpace c) eqn:Hsp.
  - destruct b; [apply IH |]. constructor; [| apply IH].
    split; [intros H; discriminate H | intros _; reflexivity].
  - constructor; [| apply IH]. split; [exact Hc |].
    intros H. congruence.
Qed.

Lemma stripPunctuation_clean s :
  Forall (fun c => lowered c /\ spaced c) s ->
  Forall (fun c => isClean c = true) (stripPunctuation s).
Proof.
  unfold stripPunctuation.
  induction 1 as [|c s [Hl Hs] _ IH]; simpl; [constructor |].
  destruct (isWord c) eqn:Hw; simpl.
  - constructor; [| exact IH]. unfold isClean. rewrite Hl by exact Hw. reflexivity.
  - destruct (isSpace c) eqn:Hsp; [| exact IH].
    constructor; [| exact IH]. rewrite (Hs Hsp). reflexivity.
Qed.

Lemma replaceFrom_Forall (P : ascii -> Prop) w r prev skip s :
  Forall P r -> Forall P s -> Forall P (replaceFrom w r prev skip s).
Proof.
  intros Hr Hs. revert prev skip.
  induction Hs as [|c s Hc Hs IH]; intros prev skip; simpl; [constructor |].
  destruct skip as [|k]; [| apply IH].
  destruct (matchesAt w prev (c :: s)).
  - apply Forall_app; split; [exact Hr | apply IH].
  - constructor; [exact Hc | apply IH].
Qed.

Lemma all_clean (r : string) :
  forallb isClean (list_ascii_of_string r) = true ->
  Forall (fun c => isClean c = true) (list_ascii_of_string r).
Proof.
  intros H. apply List.Forall_forall.
  exact (proj1 (forallb_forall _ _) H).
Qed.

Lemma expandAbbreviations_clean s :
  Forall (fun c => isClean c = true) s ->
  Forall (fun c => isClean c = true) (expandAbbreviations s).
Proof.
  intros H. unfold expandAbbreviations, replaceWord.
  repeat (apply replaceFrom_Forall; [apply all_clean; reflexivity |]).
  exact H.
Qed.

Lemma normalizeChars_clean s :
  Forall (fun c => isClean c = true) (normalizeChars s).
Proof.
  unfold normalizeChars, collapseSpaces, trim.
  apply expandAbbreviations_clean, stripPunctuation_clean, collapseFrom_bounds.
  apply trimEnd_Forall, trimStart_Forall, toLowerCase_lowered.
Qed.

(** *** Canonical strings: words separated by single spaces *)

Definition wordChars (t : list ascii) : Prop :=
  Forall (fun c => isLowerWord c = true) t.

(** A token is a non-empty run of lower-case word characters. *)
Definition Token (t : list ascii) : Prop := t <> [] /\ wordChars t.

Fixpoint unwords (ts : list (list ascii)) : list ascii :=
  match ts with
  | [] => []
  | t :: ts' =>
      match ts' with
      | [] => t
      | _ :: _ => t ++ space :: unwords ts'
      end
  end.

Lemma unwords_cons t ts :
  ts <> [] -> unwords (t :: ts) = t ++ space :: unwords ts.
Proof. destruct ts; [congruence | reflexivity]. Qed.


Lemma unwords_clean ts :
  Forall Token ts -> Forall (fun c => isClean c = true) (unwords ts).
Proof.
  assert (Hw : forall t, wordChars t -> Forall (fun c => isClean c = true) t).
  { intros t Ht. eapply Forall_impl; [exact Ht |].
    intros c Hc. unfold isClean. rewrite Hc. reflexivity. }
  induction 1 as [|t ts [_ Ht] Hts IH]; [constructor |].
  destruct ts as [|t' ts']; [apply Hw, Ht |].
  rewrite unwords_cons by discriminate.
  apply Forall_app; split; [apply Hw, Ht |].
  constructor; [reflexivity | exact IH].
Qed.

Lemma toLowerCase_clean s :
  Forall (fun c => isClean c = true) s -> toLowerCase s = s.
Proof.
  unfold toLowerCase.
  induction 1 as [|c s Hc Hs IH]; simpl; [reflexivity |].
  rewrite isClean_lower by exact Hc. rewrite IH. reflexivity.
Qed.

Lemma stripPunctuation_clean_id s :
  Forall (fun c => isClean c = true) s -> stripPunctuation s = s.
Proof.
  unfold stripPunctuation.
  induction 1 as [|c s Hc Hs IH]; simpl; [reflexivity |].
  rewrite isClean_kept by exact Hc. rewrite IH. reflexivity.
Qed.


Lemma trimEnd_cons_nonspace c s :
  isSpace c = false -> trimEnd (c :: s) = c :: trimEnd s.
Proof. intros H. simpl. rewrite H. destruct (trimEnd s); reflexivity. Qed.

Lemma trimEnd_cons_more c s :
  trimEnd s <> [] -> trimEnd (c :: s) = c :: trimEnd s.
Proof. intros H. simpl. destruct (trimEnd s); [congruence | reflexivity]. Qed.

Lemma trimEnd_wordChars_app t rest :
  wordChars t -> trimEnd (t ++ rest) = t ++ trimEnd rest.
Proof.
  induction 1 as [|c t Hc Ht IH]; [reflexivity |].
  rewrite <- app_comm_cons, trimEnd_cons_nonspace, IH; [reflexivity |].
  apply isLowerWord_facts in Hc. tauto.
Qed.


Lemma collapseFrom_wordChars_app b t rest :
  wordChars t -> t <> [] ->
  collapseFrom b (t ++ rest) = t ++ collapseFrom false rest.
Proof.
  intros Ht. revert b. induction Ht as [|c t Hc Ht IH]; intros b Hne;
    [congruence |].
  simpl. apply isLowerWord_facts in Hc as (_ & -> & _).
  destruct t as [|d t]; [reflexivity |].
  rewrite IH by discriminate. reflexivity.
Qed.



(** *** Trimming and collapsing a string of word characters and white space *)









(** *** Whole-word replacement on a canonical string *)

(** What [.replace(/\bw\b/g, r)] does to one token. *)
Definition substToken (w r t : list ascii) : list ascii :=
  if decide (t = w) then r else t.

(** A pattern is a non-empty literal of word characters. *)
Definition Pattern (w : list ascii) : Prop :=
  w <> [] /\ Forall (fun c => isWord c = true) w.

Lemma wordChars_isWord t : wordChars t -> Forall (fun c => isWord c = true) t.
Proof.
  intros H. eapply Forall_impl; [exact H |].
  intros c Hc. apply isLowerWord_facts in Hc. tauto.
Qed.

Lemma lastOr_cons prev c u : lastOr prev (c :: u) = lastOr (Some c) u.
Proof. unfold lastOr. rewrite last_cons. destruct (last u); reflexivity. Qed.

Lemma lastOr_isWord prev u :
  Forall (fun c => isWord c = true) u ->
  isWordAt prev = true \/ u <> [] ->
  isWordAt (lastOr prev u) = true.
Proof.
  intros Hu. revert prev. induction Hu as [|c u Hc Hu IH]; intros prev Hor.
  - destruct Hor as [H | H]; [exact H | congruence].
  - rewrite lastOr_cons. apply IH. left. exact Hc.
Qed.

Lemma stripPrefix_app w rest : stripPrefix w (w ++ rest) = Some rest.
Proof.
  induction w as [|a w IH]; simpl; [destruct rest; reflexivity |].
  rewrite Ascii.eqb_refl. exact IH.
Qed.

Lemma stripPrefix_in_token w t rest rest' :
  Forall (fun c => isWord c = true) w ->
  isWordAt (head rest) = false ->
  stripPrefix w (t ++ rest) = Some rest' ->
  exists t', t = w ++ t' /\ rest' = t' ++ rest.
Proof.
  intros Hw Hrest. revert t. induction Hw as [|a w Ha Hw IH]; intros t Hsp.
  - exists t. split; [reflexivity |].
    simpl in Hsp. destruct (t ++ rest); congruence.
  - destruct t as [|c t]; simpl in Hsp.
    + destruct rest as [|b rest]; [discriminate |].
      destruct (Ascii.eqb_spec a b) as [-> | _]; [| discriminate].
      simpl in Hrest. congruence.
    + destruct (Ascii.eqb_spec a c) as [-> | _]; [| discriminate].
      destruct (IH t Hsp) as (t' & -> & ->). exists t'. split; reflexivity.
Qed.

Lemma replaceFrom_skip w r prev u s :
  replaceFrom w r prev (length u) (u ++ s) = replaceFrom w r (lastOr prev u) 0 s.
Proof.
  revert prev. induction u as [|c u IH]; intros prev.
  - destruct s; reflexivity.
  - rewrite lastOr_cons. simpl. apply IH.
Qed.

(** Inside a word no boundary is found. *)
Lemma replaceFrom_inside w r prev u s :
  isWordAt prev = true -> wordChars u ->
  replaceFrom w r prev 0 (u ++ s) = u ++ replaceFrom w r (lastOr prev u) 0 s.
Proof.
  intros Hprev Hu. revert prev Hprev.
  induction Hu as [|c u Hc Hu IH]; intros prev Hprev.
  - destruct s; reflexivity.
  - rewrite lastOr_cons. simpl app. simpl replaceFrom.
    apply isLowerWord_facts in Hc as (Hc & _).
    unfold matchesAt, wordBoundary. simpl head. simpl isWordAt.
    rewrite Hprev, Hc. simpl. rewrite IH by exact Hc. reflexivity.
Qed.

Lemma replaceFrom_token w r prev t rest :
  Pattern w -> Token t ->
  isWordAt prev = false -> isWordAt (head rest) = false ->
  replaceFrom w r prev 0 (t ++ rest) =
  substToken w r t ++ replaceFrom w r (lastOr prev t) 0 rest.
Proof.
  intros [Hwne Hw] [Htne Ht] Hprev Hrest.
  pose proof (wordChars_isWord t Ht) as Htw.
  destruct t as [|c u]; [congruence |].
  inversion Ht as [|? ? Hc Hu]; subst.
  pose proof (isLowerWord_facts c Hc) as (Hcw & _).
  rewrite lastOr_cons. simpl app. simpl replaceFrom.
  unfold substToken. destruct (decide (c :: u = w)) as [<- | Hne].
  - (* the token is the pattern *)
    assert (Hyes : matchesAt (c :: u) prev ((c :: u) ++ rest) = true).
    { unfold matchesAt, wordBoundary. rewrite stripPrefix_app.
      rewrite lastOr_isWord by (try exact Htw; right; discriminate).
      simpl. rewrite Hprev, Hcw, Hrest. reflexivity. }
    simpl app in Hyes. rewrite Hyes.
    replace (length (c :: u) - 1) with (length u) by (simpl; lia).
    rewrite replaceFrom_skip. reflexivity.
  - assert (Hno : matchesAt w prev (c :: u ++ rest) = false).
    { unfold matchesAt. apply andb_false_iff. right.
      destruct (stripPrefix w (c :: u ++ rest)) as [rest' |] eqn:Hsp;
        [| reflexivity].
      apply (stripPrefix_in_token w (c :: u) rest rest' Hw Hrest) in Hsp
        as (t' & Heq & ->).
      destruct t' as [|d t']; [rewrite app_nil_r in Heq; congruence |].
      assert (Hd : isWord d = true).
      { rewrite Heq in Htw. apply Forall_app in Htw as [_ Htw].
        inversion Htw; assumption. }
      unfold wordBoundary. simpl head. simpl isWordAt at 2.
      rewrite lastOr_isWord by (try exact Hw; right; exact Hwne).
      rewrite Hd. reflexivity. }
    rewrite Hno. simpl. rewrite replaceFrom_inside by assumption. reflexivity.
Qed.

Lemma replaceFrom_space w r prev s :
  Pattern w ->
  replaceFrom w r prev 0 (space :: s) = space :: replaceFrom w r (Some space) 0 s.
Proof.
  intros [Hwne Hw]. simpl. destruct Hw as [|a w Ha Hw]; [congruence |].
  unfold matchesAt. simpl stripPrefix.
  destruct (Ascii.eqb_spec a space) as [-> | _]; [discriminate Ha |].
  rewrite andb_false_r. reflexivity.
Qed.

Lemma replaceFrom_unwords w r prev ts :
  Pattern w -> Forall Token ts -> isWordAt prev = false ->
  replaceFrom w r prev 0 (unwords ts) = unwords (map (substToken w r) ts).
Proof.
  intros Hw Hts. revert prev.
  induction Hts as [|t ts Ht Hts IH]; intros prev Hprev; [reflexivity |].
  destruct ts as [|t' ts'].
  - simpl. rewrite <- (app_nil_r t) at 1.
    rewrite replaceFrom_token by (assumption || reflexivity).
    destruct t; simpl; apply app_nil_r.
  - rewrite unwords_cons by discriminate.
    rewrite replaceFrom_token by (assumption || reflexivity).
    rewrite replaceFrom_space by exact Hw.
    rewrite IH by reflexivity.
    change (map (substToken w r) (t :: t' :: ts'))
      with (substToken w r t :: map (substToken w r) (t' :: ts')).
    rewrite unwords_cons by discriminate. reflexivity.
Qed.

Lemma substToken_Token w r t : Token r -> Token t -> Token (substToken w r t).
Proof. intros Hr Ht. unfold substToken. destruct (decide (t = w)); assumption. Qed.

(** *** The five expansions *)

Definition lit (s : string) : list ascii := list_ascii_of_string s.

Definition expandToken (t : list ascii) : list ascii :=
  substToken (lit "maha") (lit "maharashtra")
    (substToken (lit "mh") (lit "maharashtra")
      (substToken (lit "ave") (lit "avenue")
        (substToken (lit "st") (lit "street")
          (substToken (lit "rd") (lit "road") t)))).

Lemma lit_Token (s : string) :
  s <> EmptyString -> forallb isLowerWord (lit s) = true -> Token (lit s).
Proof.
  intros Hne Hall. split.
  - destruct s; [congruence | discriminate].
  - apply List.Forall_forall. exact (proj1 (forallb_forall _ _) Hall).
Qed.

Lemma lit_Pattern (s : string) :
  s <> EmptyString -> forallb isLowerWord (lit s) = true -> Pattern (lit s).
Proof.
  intros Hne Hall. destruct (lit_Token s Hne Hall) as [H1 H2].
  split; [exact H1 | apply wordChars_isWord, H2].
Qed.

Ltac literal := (apply lit_Token || apply lit_Pattern); [discriminate | reflexivity].


Lemma expandAbbreviations_unwords ts :
  Forall Token ts ->
  expandAbbreviations (unwords ts) = unwords (map expandToken ts).
Proof.
  intros Hts. unfold expandAbbreviations, replaceWord.
  fold (lit "rd") (lit "road") (lit "st") (lit "street") (lit "ave")
    (lit "avenue") (lit "mh") (lit "maha") (lit "maharashtra").
  assert (Hmap : forall w r l, Token r -> Forall Token l ->
                   Forall Token (map (substToken w r) l)).
  { intros w r l Hr Hl. apply Forall_map. eapply Forall_impl; [exact Hl |].
    intros t Ht. apply substToken_Token; assumption. }
  rewrite (replaceFrom_unwords (lit "rd")) by (literal || assumption || reflexivity).
  rewrite (replaceFrom_unwords (lit "st"))
    by (literal || reflexivity || (repeat apply Hmap; (literal || assumption))).
  rewrite (replaceFrom_unwords (lit "ave"))
    by (literal || reflexivity || (repeat apply Hmap; (literal || assumption))).
  rewrite (replaceFrom_unwords (lit "mh"))
    by (literal || reflexivity || (repeat apply Hmap; (literal || assumption))).
  rewrite (replaceFrom_unwords (lit "maha"))
    by (literal || reflexivity || (repeat apply Hmap; (literal || assumption))).
  rewrite !map_map. reflexivity.
Qed.




(** *** The pipeline on canonical strings and idempotence *)







Lemma normalizeAddress_chars (x : string) :
  list_ascii_of_string (normalizeAddress x) =
  normalizeChars (list_ascii_of_string x).
Proof. unfold normalizeAddress. apply list_ascii_of_string_of_list_ascii. Qed.

(** *** White space around and between the words *)

Definition spaces (s : list ascii) : Prop := Forall (fun c => isSpace c = true) s.

Lemma toLowerCase_app (s t : list ascii) :
  toLowerCase (s ++ t) = toLowerCase s ++ toLowerCase t.
Proof. unfold toLowerCase. apply map_app. Qed.

Lemma toLowerCase_spaces s : spaces s -> spaces (toLowerCase s).
Proof.
  unfold toLowerCase. induction 1 as [|c s Hc Hs IH]; simpl; constructor;
    [| exact IH].
  rewrite toLowerChar_space. exact Hc.
Qed.

Lemma trimStart_spaces_app s t : spaces s -> trimStart (s ++ t) = trimStart t.
Proof. induction 1 as [|c s Hc Hs IH]; simpl; [reflexivity |]. rewrite Hc. exact IH. Qed.

Lemma trimEnd_spaces s : spaces s -> trimEnd s = [].
Proof.
  induction 1 as [|c s Hc Hs IH]; simpl; [reflexivity |]. rewrite IH, Hc.
  reflexivity.
Qed.

Lemma trimEnd_app_spaces s t : spaces t -> trimEnd (s ++ t) = trimEnd s.
Proof.
  intros Ht. induction s as [|c s IH]; simpl; [apply trimEnd_spaces, Ht |].
  rewrite IH. reflexivity.
Qed.

Lemma trimStart_app s t :
  trimStart (s ++ t) = if forallb isSpace s then trimStart t else trimStart s ++ t.
Proof.
  induction s as [|c s IH]; simpl; [reflexivity |].
  destruct (isSpace c); [exact IH | reflexivity].
Qed.

Lemma trimStart_all_spaces s : forallb isSpace s = true -> trimStart s = [].
Proof.
  induction s as [|c s IH]; simpl; [reflexivity |].
  destruct (isSpace c); [exact IH | discriminate].
Qed.

(** White space around a string does not count. *)
Lemma trim_surrounded lead s trail :
  spaces lead -> spaces trail -> trim (lead ++ s ++ trail) = trim s.
Proof.
  intros Hl Ht. unfold trim. rewrite trimStart_spaces_app by exact Hl.
  rewrite trimStart_app. destruct (forallb isSpace s) eqn:Hs.
  - rewrite (trimStart_all_spaces s) by exact Hs.
    rewrite <- (app_nil_r trail), trimStart_spaces_app by exact Ht.
    reflexivity.
  - apply trimEnd_app_spaces, Ht.
Qed.

Lemma normalizeChars_surrounded lead s trail :
  spaces lead -> spaces trail ->
  normalizeChars (lead ++ s ++ trail) = normalizeChars s.
Proof.
  intros Hl Ht. unfold normalizeChars.
  rewrite !toLowerCase_app, trim_surrounded by (apply toLowerCase_spaces; assumption).
  reflexivity.
Qed.

Lemma toLowerChar_idempotent c : toLowerChar (toLowerChar c) = toLowerChar c.
Proof. each_char c. Qed.

Lemma toLowerCase_idempotent s : toLowerCase (toLowerCase s) = toLowerCase s.
Proof.
  unfold toLowerCase. rewrite map_map. apply map_ext, toLowerChar_idempotent.
Qed.

Lemma normalizeChars_spaces s : spaces s -> normalizeChars s = [].
Proof.
  intros Hs. rewrite <- (app_nil_r s).
  change (s ++ []) with (s ++ [] ++ []).
  rewrite normalizeChars_surrounded by (exact Hs || constructor).
  reflexivity.
Qed.

(** *** Words with white space between them *)

(** A word is a non-empty run of word characters, in either case. *)
Definition Word (w : list ascii) : Prop :=
  w <> [] /\ Forall (fun c => isWord c = true) w.

(** A separator is a non-empty run of white space. *)
Definition Separator (sep : list ascii) : Prop := sep <> [] /\ spaces sep.

(** The words [w] and [ws], each of the latter behind its separator. *)
Fixpoint separated (ws : list (list ascii * list ascii)) : list ascii :=
  match ws with
  | (sep, w) :: ws' => sep ++ w ++ separated ws'
  | [] => []
  end.

Lemma toLowerCase_Word w : Word w -> Token (toLowerCase w).
Proof.
  intros [Hne Hw]. split.
  - destruct w; [congruence | discriminate].
  - unfold wordChars, toLowerCase.
    induction Hw as [|c w Hc Hw IH]; simpl; constructor.
    + apply toLowerChar_word, Hc.
    + destruct w as [|d w]; [constructor | apply IH; discriminate].
Qed.

Lemma toLowerCase_Separator sep : Separator sep -> Separator (toLowerCase sep).
Proof.
  intros [Hne Hs]. split; [| apply toLowerCase_spaces, Hs].
  destruct sep; [congruence | discriminate].
Qed.

Definition lowerPair (p : list ascii * list ascii) : list ascii * list ascii :=
  (toLowerCase (fst p), toLowerCase (snd p)).

Lemma toLowerCase_separated ws :
  toLowerCase (separated ws) = separated (map lowerPair ws).
Proof.
  induction ws as [|[sep w] ws IH]; [reflexivity |].
  simpl. rewrite !toLowerCase_app, IH. reflexivity.
Qed.

Definition wellSeparated (ws : list (list ascii * list ascii)) : Prop :=
  Forall (fun p => Separator (fst p) /\ Token (snd p)) ws.

Lemma unwords_separated t (ws : list (list ascii * list ascii)) :
  unwords (t :: map snd ws) = t ++ separated (map (fun p => ([space], snd p)) ws).
Proof.
  revert t. induction ws as [|[sep w] ws IH]; intros t.
  - simpl. symmetry. apply app_nil_r.
  - change (map snd ((sep, w) :: ws)) with (w :: map snd ws).
    rewrite unwords_cons by discriminate. rewrite IH. reflexivity.
Qed.

Lemma trimEnd_app_more s t : trimEnd t <> [] -> trimEnd (s ++ t) = s ++ trimEnd t.
Proof.
  intros Ht. induction s as [|c s IH]; [reflexivity |].
  rewrite <- app_comm_cons, trimEnd_cons_more; rewrite IH; [reflexivity |].
  destruct s; simpl; [exact Ht | discriminate].
Qed.

Lemma trimEnd_Token_nonempty t rest : Token t -> trimEnd (t ++ rest) <> [].
Proof.
  intros [Hne Ht]. rewrite trimEnd_wordChars_app by exact Ht.
  destruct t; [congruence | discriminate].
Qed.

Lemma trimEnd_separated ws : wellSeparated ws -> trimEnd (separated ws) = separated ws.
Proof.
  induction 1 as [|[sep w] ws [Hsep Hw] Hws IH]; [reflexivity |].
  simpl in *. rewrite trimEnd_app_more by (apply trimEnd_Token_nonempty, Hw).
  rewrite trimEnd_wordChars_app by apply Hw. rewrite IH. reflexivity.
Qed.

Lemma collapseFrom_true_spaces s t :
  spaces s -> collapseFrom true (s ++ t) = collapseFrom true t.
Proof. induction 1 as [|c s Hc Hs IH]; simpl; [reflexivity |]. rewrite Hc. exact IH. Qed.

Lemma collapseFrom_separated ws :
  wellSeparated ws ->
  collapseFrom false (separated ws)
  = separated (map (fun p => ([space], snd p)) ws).
Proof.
  induction 1 as [|[sep w] ws [[Hne Hsep] [Hwne Hw]] Hws IH]; [reflexivity |].
  simpl in *. destruct Hsep as [|c sep Hc Hsep]; [congruence |].
  simpl. rewrite Hc. rewrite collapseFrom_true_spaces by exact Hsep.
  rewrite collapseFrom_wordChars_app by assumption. rewrite IH. reflexivity.
Qed.

(** Steps 2 and 3 on lower-case words between white space. *)
Lemma collapse_trim_separated lead t ws trail :
  spaces lead -> spaces trail -> Token t -> wellSeparated ws ->
  collapseSpaces (trim (lead ++ (t ++ separated ws) ++ trail))
  = unwords (t :: map snd ws).
Proof.
  intros Hl Htr Ht Hws. rewrite trim_surrounded by assumption.
  unfold collapseSpaces, trim.
  destruct Ht as [Hne Ht].
  assert (Hstart : trimStart (t ++ separated ws) = t ++ separated ws).
  { destruct Ht as [|c t Hc Ht]; [congruence |].
    simpl. apply isLowerWord_facts in Hc as (_ & -> & _). reflexivity. }
  rewrite Hstart, trimEnd_wordChars_app, trimEnd_separated by assumption.
  rewrite collapseFrom_wordChars_app, collapseFrom_separated by assumption.
  symmetry. apply unwords_separated.
Qed.

Lemma map_lowerPair_wellSeparated ws :
  Forall (fun p => Separator (fst p) /\ Word (snd p)) ws ->
  wellSeparated (map lowerPair ws).
Proof.
  induction 1 as [|[sep w] ws [Hsep Hw] Hws IH]; [constructor |].
  constructor; [| exact IH]. simpl.
  split; [apply toLowerCase_Separator, Hsep | apply toLowerCase_Word, Hw].
Qed.

(** The whole pipeline on words between white space. *)
Lemma normalizeChars_separated lead w ws trail :
  spaces lead -> spaces trail -> Word w ->
  Forall (fun p => Separator (fst p) /\ Word (snd p)) ws ->
  normalizeChars (lead ++ (w ++ separated ws) ++ trail)
  = unwords (map (fun x => expandToken (toLowerCase x)) (w :: map snd ws)).
Proof.
  intros Hl Htr Hw Hws. unfold normalizeChars.
  rewrite !toLowerCase_app, toLowerCase_separated.
  pose proof (toLowerCase_Word w Hw) as Ht.
  pose proof (map_lowerPair_wellSeparated ws Hws) as Hsep.
  rewrite collapse_trim_separated
    by (assumption || (apply toLowerCase_spaces; assumption)).
  assert (Htoks : Forall Token (toLowerCase w :: map snd (map lowerPair ws))).
  { constructor; [exact Ht |]. apply Forall_map.
    eapply Forall_impl; [exact Hsep |]. intros p [_ Hp]. exact Hp. }
  rewrite stripPunctuation_clean_id by (apply unwords_clean, Htoks).
  rewrite expandAbbreviations_unwords by exact Htoks.
  f_equal. simpl. f_equal. rewrite !map_map. reflexivity.
Qed.

(** *** The second application

    What the first application returns is made of lower-case word
    characters and spaces; the second one finds nothing to put into lower
    case, nothing to strip and no abbreviation, so it trims and collapses. *)






















(** *** Tidy strings *)

Definition startsWithSpace (s : list ascii) : bool :=
  match s with c :: _ => Ascii.eqb c space | [] => false end.







Lemma isLowerWord_not_space c : isLowerWord c = true -> Ascii.eqb c space = false.
Proof. each_char c. Qed.











(** *** Which inputs the second application leaves alone

    The input is taken apart at its white space. *)
























Lemma startsWithSpace_wordChars_app t rest :
  wordChars t -> t <> [] -> startsWithSpace (t ++ rest) = false.
Proof.
  intros Ht Hne. destruct Ht as [|c t Hc _]; [congruence |].
  simpl. apply isLowerWord_not_space, Hc.
Qed.









End Normalizer.

(** ** The cache over a run of requests *)

Module CacheFacts.
Import Distance SemanticCache DistanceFacts Matching Store.

(** *** What [findSimilar] returns *)

Lemma refineBest_In q (best : CacheEntry) (later : list CacheEntry) :
  refineBest q best later = best \/ In (refineBest q best later) later.
Proof.
  revert best. induction later as [|e later IH]; intros best; simpl;
    [left; reflexivity |].
  destruct (overrides q best e).
  - destruct (IH e) as [-> | H]; [right; left; reflexivity | right; right; exact H].
  - destruct (IH best) as [-> | H]; [left; reflexivity | right; right; exact H].
Qed.

Lemma overrides_true q (best e : CacheEntry) :
  overrides q best e = true ->
  isCandidate q e = true /\ (similarityTo q best < similarityTo q e)%R
  /\ (apart e best < DISTANCE_THRESHOLD)%R.
Proof.
  unfold overrides. intros H.
  apply andb_true_iff in H as [H H3]. apply andb_true_iff in H as [H1 H2].
  apply Rltb_true in H2. apply Rltb_true in H3. auto.
Qed.

Lemma refineBest_better q (best : CacheEntry) (later : list CacheEntry) :
  isCandidate q best = true ->
  isCandidate q (refineBest q best later) = true /\
  (similarityTo q best <= similarityTo q (refineBest q best later))%R.
Proof.
  revert best. induction later as [|e later IH]; intros best Hbest; simpl.
  - split; [exact Hbest | lra].
  - destruct (overrides q best e) eqn:Ho.
    + apply overrides_true in Ho as (He & Hlt & _).
      destruct (IH e He) as [H1 H2]. split; [exact H1 | lra].
    + apply IH, Hbest.
Qed.

Lemma selectBest_Some q (entries : list CacheEntry) (e : CacheEntry) :
  selectBest q entries = Some e ->
  exists before first after,
    entries = before ++ first :: after /\
    Forall (fun x => isCandidate q x = false) before /\
    isCandidate q first = true /\
    (e = first \/ In e after) /\
    isCandidate q e = true /\
    (similarityTo q first <= similarityTo q e)%R.
Proof.
  induction entries as [|x rest IH]; simpl; [discriminate |].
  destruct (isCandidate q x) eqn:Hx.
  - intros [= <-]. exists [], x, rest.
    destruct (refineBest_better q x rest Hx) as [H1 H2].
    repeat split; try assumption; [constructor | apply refineBest_In].
  - intros H. destruct (IH H) as (before & first & after & -> & Hb & Hrest).
    exists (x :: before), first, after.
    split; [reflexivity |]. split; [constructor; assumption | exact Hrest].
Qed.

(** A query without direction, or of another dimension, is similar to
    nothing. *)
Lemma isCandidate_degenerate q (e : CacheEntry) :
  magnitude q = 0%R \/ length q <> length (embedding e) ->
  isCandidate q e = false.
Proof.
  intros H. unfold isCandidate, similarityTo, Rgtb.
  rewrite cosineSimilarity_degenerate by tauto.
  apply Rltb_false. unfold SIMILARITY_THRESHOLD. lra.
Qed.

(** *** Insert, then look up *)

(** The entries after [store]: some of the old ones, then the new one. *)
Lemma store_keeps_suffix svc a n r emb t :
  exists kept,
    cacheEntries (store svc a n r emb t) = kept ++ [newEntry a n r emb t] /\
    (forall P : CacheEntry -> Prop, Forall P (cacheEntries svc) -> Forall P kept).
Proof.
  destruct (evicts svc) eqn:He.
  - destruct (store_evicting svc a n r emb t He) as (oldest & rest & H1 & H2 & _).
    exists rest. split; [exact H2 |].
    intros P HP. rewrite H1 in HP. inversion HP; assumption.
  - exists (cacheEntries svc). rewrite store_cacheEntries, He.
    split; [reflexivity | auto].
Qed.



(** *** The two structures *)

(** Every record of the keyed store is an entry of the sequence, under the
    key of that entry. *)
Definition keyedWithin (svc : Service) : Prop :=
  forall key expiry e,
    NodeCache.data (cache svc) !! key = Some (expiry, e) ->
    In e (cacheEntries svc) /\ entryKey e = key.

Lemma store_keyedWithin svc a n r emb t :
  keyedWithin svc -> keyedWithin (store svc a n r emb t).
Proof.
  intros Hinv key expiry e. destruct (evicts svc) eqn:He.
  - destruct (store_evicting svc a n r emb t He)
      as (oldest & rest & H1 & -> & ->).
    intros H. apply lookup_delete_Some in H as [Hne H].
    apply lookup_insert_Some in H as [[<- [= <- <-]] | [Hne' H]].
    + split; [apply in_or_app; right; left; reflexivity | reflexivity].
    + destruct (Hinv key expiry e H) as [Hin Hkey]. split; [| exact Hkey].
      apply in_or_app. left. rewrite H1 in Hin.
      destruct Hin as [<- | Hin]; [congruence | exact Hin].
  - rewrite store_cacheEntries, store_data_kept, He by exact He.
    intros H. apply lookup_insert_Some in H as [[<- [= <- <-]] | [Hne' H]].
    + split; [apply in_or_app; right; left; reflexivity | reflexivity].
    + destruct (Hinv key expiry e H) as [Hin Hkey]. split; [| exact Hkey].
      apply in_or_app. left. exact Hin.
Qed.

(** What every reachable state satisfies. *)
Definition wellFormed (svc : Service) : Prop :=
  keyedWithin svc /\ NodeCache.stdTTL (cache svc) = CACHE_TTL.

Lemma store_stdTTL svc a n r emb t :
  NodeCache.stdTTL (cache (store svc a n r emb t)) = NodeCache.stdTTL (cache svc).
Proof.
  rewrite store_cache. cbv zeta.
  destruct (evicts svc); [destruct (cacheEntries svc ++ _) |]; reflexivity.
Qed.

Lemma store_wellFormed svc a n r emb t :
  wellFormed svc -> wellFormed (store svc a n r emb t).
Proof.
  intros [H1 H2]. split; [apply store_keyedWithin, H1 |].
  rewrite store_stdTTL. exact H2.
Qed.

Lemma step_wellFormed svc ev : wellFormed svc -> wellFormed (step svc ev).
Proof.
  intros H. destruct ev as [env a | env la lo | | | t]; simpl.
  - unfold geocodeWithCache.
    destruct (findSimilar _ _ _); [exact H |].
    destruct (geocode env a); [apply store_wellFormed |]; exact H.
  - unfold reverseGeocodeWithCache.
    destruct (findNearby _ _ _ _); [exact H |].
    destruct (reverseGeocode env la lo); [apply store_wellFormed |]; exact H.
  - exact H.
  - split; [| exact (proj2 H)]. intros key expiry e Hk. discriminate Hk.
  - destruct H as [H1 H2]. split; [| exact H2].
    intros key expiry e Hk. simpl in Hk.
    apply map_lookup_filter_Some in Hk as [Hk _]. exact (H1 key expiry e Hk).
Qed.

Lemma fold_step_wellFormed (evs : list Event) svc :
  wellFormed svc -> wellFormed (fold_left step evs svc).
Proof.
  revert svc. induction evs as [|ev evs IH]; intros svc H; [exact H |].
  simpl. apply IH, step_wellFormed, H.
Qed.

Lemma run_wellFormed (evs : list Event) : wellFormed (run evs).
Proof.
  apply fold_step_wellFormed. split; [| reflexivity].
  intros key expiry e H. discriminate H.
Qed.

Lemma size_le_entries (m : gmap string (Z * CacheEntry)) (l : list CacheEntry) :
  (forall key r, m !! key = Some r -> exists e, In e l /\ entryKey e = key) ->
  (size m <= length l)%nat.
Proof.
  revert m. induction l as [|e l IH]; intros m H.
  - assert (Hm : m = ∅).
    { apply map_empty. intros key. destruct (m !! key) as [r |] eqn:Hk;
        [| reflexivity].
      destruct (H key r Hk) as (x & [] & _). }
    rewrite Hm, map_size_empty. simpl. lia.
  - assert (Hdel : (size (delete (entryKey e) m) <= length l)%nat).
    { apply IH. intros key r Hk. apply lookup_delete_Some in Hk as [Hne Hk].
      destruct (H key r Hk) as (x & [<- | Hin] & Hkey); [congruence |].
      exists x. split; assumption. }
    rewrite map_size_delete in Hdel. simpl length.
    destruct (m !! entryKey e); simpl in Hdel; lia.
Qed.

Lemma keys_le_entries svc :
  keyedWithin svc -> (keys (getStats svc) <= entries (getStats svc))%nat.
Proof.
  intros H. simpl. unfold NodeCache.keys.
  rewrite length_map, length_map_to_list.
  apply size_le_entries. intros key [expiry e] Hk.
  exists e. exact (H key expiry e Hk).
Qed.


Lemma store_In_new svc a n r emb t :
  In (newEntry a n r emb t) (cacheEntries (store svc a n r emb t)).
Proof.
  destruct (store_keeps_suffix svc a n r emb t) as (kept & -> & _).
  apply in_or_app. right. left. reflexivity.
Qed.

Lemma findSimilar_In svc key q e :
  findSimilar svc key q = Some e -> In e (cacheEntries svc).
Proof.
  intros H. rewrite findSimilar_selectBest in H.
  apply selectBest_Some in H
    as (before & first & after & -> & _ & _ & [-> | Hin] & _);
    apply in_or_app; right; [left; reflexivity | right; exact Hin].
Qed.

Lemma findNearby_In svc lat0 lng0 radius e :
  findNearby svc lat0 lng0 radius = Some e -> In e (cacheEntries svc).
Proof.
  intros H. apply findNearbyIn_Some in H as (before & after & -> & _).
  apply in_or_app. right. left. reflexivity.
Qed.

End CacheFacts.

(** ** The cache under other thresholds *)

Module ConfiguredFacts.
Import Distance SemanticCache DistanceFacts Matching Store CacheFacts.
Local Open Scope R_scope.

(** At the defaults these are the definitions of [SemanticCache]. *)
Lemma findSimilar_defaults :
  Configured.findSimilar SIMILARITY_THRESHOLD DISTANCE_THRESHOLD = findSimilar.
Proof. reflexivity. Qed.

Lemma geocodeWithCache_defaults :
  Configured.geocodeWithCache SIMILARITY_THRESHOLD DISTANCE_THRESHOLD
  = geocodeWithCache.
Proof. reflexivity. Qed.

Section Thresholds.
Variables similarityThreshold distanceThreshold : R.

(** The similarity of the entry to the query exceeds the threshold. *)
Definition exceeds (q : list R) (e : CacheEntry) : bool :=
  Rgtb (similarityTo q e) similarityThreshold.

Lemma findSimilarStep_below q b e :
  exceeds q e = false ->
  Configured.findSimilarStep similarityThreshold distanceThreshold q b e = b.
Proof.
  unfold exceeds, similarityTo, Configured.findSimilarStep. cbv zeta.
  intros ->. reflexivity.
Qed.

Lemma findSimilarStep_first q score e :
  exceeds q e = true ->
  bestMatch
    (Configured.findSimilarStep similarityThreshold distanceThreshold q
       {| bestMatch := None; bestScore := score |} e)
  = Some e.
Proof.
  unfold exceeds, similarityTo, Configured.findSimilarStep. cbv zeta.
  intros ->. reflexivity.
Qed.

(** Once there is a provisional best, there is one to the end. *)
Lemma fold_findSimilarStep_found q (later : list CacheEntry) (b : Best) :
  bestMatch b <> None ->
  bestMatch
    (fold_left
       (Configured.findSimilarStep similarityThreshold distanceThreshold q)
       later b) <> None.
Proof.
  revert b. induction later as [|e later IH]; intros b Hb; [exact Hb |].
  simpl. apply IH. unfold Configured.findSimilarStep. cbv zeta.
  destruct (Rgtb _ similarityThreshold); [| exact Hb].
  destruct (bestMatch b) as [best |] eqn:Hbest; [| discriminate].
  destruct (_ && _); [discriminate | rewrite Hbest; discriminate].
Qed.

Lemma fold_findSimilarStep_skip q (skipped rest : list CacheEntry) (b : Best) :
  Forall (fun e => exceeds q e = false) skipped ->
  fold_left (Configured.findSimilarStep similarityThreshold distanceThreshold q)
    (skipped ++ rest) b
  = fold_left
      (Configured.findSimilarStep similarityThreshold distanceThreshold q)
      rest b.
Proof.
  induction 1 as [|e skipped He _ IH]; [reflexivity |].
  simpl. rewrite findSimilarStep_below by exact He. exact IH.
Qed.

Lemma findSimilar_None svc key q :
  Configured.findSimilar similarityThreshold distanceThreshold svc key q = None
  <-> Forall (fun e => exceeds q e = false) (cacheEntries svc).
Proof.
  unfold Configured.findSimilar. generalize 0. intros score.
  induction (cacheEntries svc) as [|e later IH]; simpl.
  - split; [constructor | reflexivity].
  - destruct (exceeds q e) eqn:He.
    + split; [| intros H; inversion H; congruence].
      intros H. exfalso. revert H. apply fold_findSimilarStep_found.
      rewrite findSimilarStep_first by exact He. discriminate.
    + rewrite findSimilarStep_below by exact He. rewrite IH.
      split; [intros H; constructor; assumption | intros H; inversion H; assumption].
Qed.

(** Insert, then look up. *)
Lemma findSimilar_stored svc a n r q t key :
  Configured.findSimilar similarityThreshold distanceThreshold svc key q = None ->
  Configured.findSimilar similarityThreshold distanceThreshold
    (store svc a n r q t) key q
  = if Rgtb (cosineSimilarity q q) similarityThreshold
    then Some (newEntry a n r q t) else None.
Proof.
  intros Hmiss. apply findSimilar_None in Hmiss.
  destruct (Rgtb (cosineSimilarity q q) similarityThreshold) eqn:Hself.
  - unfold Configured.findSimilar.
    destruct (store_keeps_suffix svc a n r q t) as (kept & -> & Hkept).
    rewrite fold_findSimilarStep_skip by (apply Hkept, Hmiss).
    simpl fold_left. apply findSimilarStep_first. exact Hself.
  - apply findSimilar_None.
    destruct (store_keeps_suffix svc a n r q t) as (kept & -> & Hkept).
    apply Forall_app. split; [apply Hkept, Hmiss |].
    constructor; [exact Hself | constructor].
Qed.

(** Asking twice. *)
Lemma geocodeWithCache_again svc env1 env2 address r :
  Configured.findSimilar similarityThreshold distanceThreshold svc
    (normalizeAddress address)
    (generateEmbedding env1 (normalizeAddress address)) = None ->
  geocode env1 address = Some r ->
  generateEmbedding env2 (normalizeAddress address)
  = generateEmbedding env1 (normalizeAddress address) ->
  let q := generateEmbedding env1 (normalizeAddress address) in
  let stored :=
    snd (Configured.geocodeWithCache similarityThreshold distanceThreshold
           svc env1 address) in
  (similarityThreshold < cosineSimilarity q q ->
   Configured.geocodeWithCache similarityThreshold distanceThreshold
     stored env2 address
   = (Some {| rLat := rLat r; rLng := rLng r;
              rDisplayName := rDisplayName r;
              rStructured := rStructured r; source := FromCache |},
      stored)) /\
  (cosineSimilarity q q <= similarityThreshold ->
   fst (Configured.geocodeWithCache similarityThreshold distanceThreshold
          stored env2 address)
   = geocode env2 address).
Proof.
  intros Hmiss Hgeo Hsame q stored.
  assert (Hstored : stored
                    = store svc address (normalizeAddress address) r q (now env1)).
  { subst stored q. unfold Configured.geocodeWithCache. cbv zeta.
    rewrite Hmiss, Hgeo. reflexivity. }
  rewrite Hstored. unfold Configured.geocodeWithCache. cbv zeta.
  rewrite Hsame. fold q. rewrite findSimilar_stored by exact Hmiss.
  split; intros H.
  - apply Rltb_true in H. unfold Rgtb. rewrite H. reflexivity.
  - apply Rltb_false in H. unfold Rgtb. rewrite H.
    destruct (geocode env2 address); reflexivity.
Qed.

(** Over the reals an embedding with a direction is as similar to itself
    as can be. *)
Lemma self_similarity_exceeds q :
  similarityThreshold < 1 -> magnitude q <> 0 ->
  similarityThreshold < cosineSimilarity q q.
Proof. intros Hth Hq. rewrite cosineSimilarity_self by exact Hq. exact Hth. Qed.

End Thresholds.
End ConfiguredFacts.

(** ** The fallback embedding *)

Module OllamaFacts.
Import Distance OllamaService DistanceFacts.
Local Open Scope R_scope.

(** The vector before it is normalized. *)
Definition rawEmbedding (text : string) : list R :=
  hashInto (replicate 384 0) 0 (trim (toLowerCase (list_ascii_of_string text))).

Definition nonneg (l : list R) : Prop := Forall (fun v => 0 <= v) l.

Lemma charCode_nonneg (c : ascii) : 0 <= INR (N.to_nat (code c)) / 1000.
Proof.
  apply Rmult_le_pos; [apply pos_INR |]. apply Rlt_le, Rinv_0_lt_compat. lra.
Qed.

Lemma charCode_pos (c : ascii) : code c <> 0%N -> 0 < INR (N.to_nat (code c)) / 1000.
Proof.
  intros H. apply Rdiv_lt_0_compat; [| lra]. apply lt_0_INR. lia.
Qed.

Lemma hashInto_length (s : list ascii) (e : list R) (i : nat) :
  length (hashInto e i s) = length e.
Proof.
  revert e i. induction s as [|c s IH]; intros e i; simpl; [reflexivity |].
  rewrite IH. apply length_alter.
Qed.

Lemma alter_nonneg (e : list R) (j : nat) (x : R) :
  0 <= x -> nonneg e -> nonneg (alter (fun v => v + x) j e).
Proof.
  intros Hx He. revert j. induction He as [|v e Hv He IH]; intros j.
  - constructor.
  - destruct j as [|j]; simpl.
    + constructor; [lra | exact He].
    + constructor; [exact Hv | apply IH].
Qed.

Lemma hashInto_nonneg (s : list ascii) (e : list R) (i : nat) :
  nonneg e -> nonneg (hashInto e i s).
Proof.
  revert e i. induction s as [|c s IH]; intros e i He; simpl; [exact He |].
  apply IH, alter_nonneg; [apply charCode_nonneg | exact He].
Qed.

(** The loop only adds: no component decreases. *)
Lemma hashInto_grows (s : list ascii) (e : list R) (i j : nat) (x : R) :
  e !! j = Some x ->
  exists y, hashInto e i s !! j = Some y /\ x <= y.
Proof.
  revert e i x. induction s as [|c s IH]; intros e i x Hj; simpl.
  - exists x. split; [exact Hj | lra].
  - set (k := ((N.to_nat (code c) * (i + 1)) mod length e)%nat).
    pose proof (charCode_nonneg c) as Hc.
    destruct (decide (k = j)) as [-> | Hne].
    + destruct (IH (alter (fun v => v + INR (N.to_nat (code c)) / 1000) j e)
                  (i + 1)%nat (x + INR (N.to_nat (code c)) / 1000))
        as (y & Hy & Hle).
      { rewrite list_lookup_alter_eq, Hj. reflexivity. }
      exists y. split; [exact Hy | lra].
    + apply IH. rewrite list_lookup_alter_ne by exact Hne. exact Hj.
Qed.

(** A code unit other than NUL leaves a positive component. *)
Lemma hashInto_positive (s : list ascii) (e : list R) (i : nat) :
  nonneg e -> (0 < length e)%nat ->
  (exists c, In c s /\ code c <> 0%N) ->
  exists j y, hashInto e i s !! j = Some y /\ 0 < y.
Proof.
  revert e i. induction s as [|c s IH]; intros e i He Hlen (d & Hin & Hd).
  - destruct Hin.
  - simpl. set (k := ((N.to_nat (code c) * (i + 1)) mod length e)%nat).
    assert (Hk : (k < length e)%nat) by (apply Nat.mod_upper_bound; lia).
    destruct (N.eq_dec (code c) 0%N) as [Hc0 | Hc].
    + destruct Hin as [-> | Hin]; [contradiction |].
      apply IH.
      * apply alter_nonneg; [apply charCode_nonneg | exact He].
      * rewrite length_alter. exact Hlen.
      * exists d. split; assumption.
    + destruct (lookup_lt_is_Some_2 e k Hk) as [x Hx].
      assert (Hx0 : 0 <= x).
      { eapply (proj1 (Forall_lookup _ _) He); exact Hx. }
      destruct (hashInto_grows s
                  (alter (fun v => v + INR (N.to_nat (code c)) / 1000) k e)
                  (i + 1)%nat k (x + INR (N.to_nat (code c)) / 1000))
        as (y & Hy & Hle).
      { rewrite list_lookup_alter_eq, Hx. reflexivity. }
      exists k, y. split; [exact Hy |].
      pose proof (charCode_pos c Hc). lra.
Qed.

Lemma sumSquares_lookup (l : list R) (j : nat) (y : R) :
  l !! j = Some y -> y * y <= sumSquares l.
Proof.
  revert j. induction l as [|v l IH]; intros j Hj; [discriminate |].
  destruct j as [|j]; simpl in *.
  - injection Hj as ->. pose proof (sumSquares_nonneg l). lra.
  - pose proof (IH j Hj). pose proof (Rle_0_sqr v) as Hv. unfold Rsqr in Hv. lra.
Qed.

Lemma sumSquares_replicate_0 (n : nat) : sumSquares (replicate n 0) = 0.
Proof. induction n as [|n IH]; simpl; [reflexivity | rewrite IH; lra]. Qed.

Lemma fold_sumSquares (l : list R) (acc : R) :
  fold_left (fun sum val => sum + val * val) l acc = acc + sumSquares l.
Proof.
  revert acc. induction l as [|v l IH]; intros acc; simpl; [lra |].
  rewrite IH. lra.
Qed.

Lemma fallbackEmbedding_raw (text : string) :
  fallbackEmbedding text =
  map (fun val => if Rgtb (magnitude (rawEmbedding text)) 0
                  then val / magnitude (rawEmbedding text) else 0)
      (rawEmbedding text).
Proof.
  unfold fallbackEmbedding, rawEmbedding, magnitude. cbv zeta.
  rewrite fold_sumSquares, Rplus_0_l. reflexivity.
Qed.

Lemma rawEmbedding_length (text : string) : length (rawEmbedding text) = 384%nat.
Proof. unfold rawEmbedding. rewrite hashInto_length. apply length_replicate. Qed.

Lemma rawEmbedding_nonneg (text : string) : nonneg (rawEmbedding text).
Proof.
  unfold rawEmbedding. apply hashInto_nonneg.
  apply Forall_replicate. lra.
Qed.

Lemma fallbackEmbedding_length (text : string) :
  length (fallbackEmbedding text) = 384%nat.
Proof. rewrite fallbackEmbedding_raw, length_map. apply rawEmbedding_length. Qed.

Lemma fallbackEmbedding_nonneg (text : string) : nonneg (fallbackEmbedding text).
Proof.
  rewrite fallbackEmbedding_raw.
  pose proof (rawEmbedding_nonneg text) as Hraw.
  set (m := magnitude (rawEmbedding text)).
  assert (Hm : 0 <= m) by apply sqrt_pos. clearbody m.
  induction Hraw as [|v l Hv Hl IH]; simpl; constructor; [| exact IH].
  destruct (Rgtb m 0) eqn:Hg; [| lra].
  apply Rltb_true in Hg. apply Rmult_le_pos; [exact Hv |].
  apply Rlt_le, Rinv_0_lt_compat, Hg.
Qed.

Lemma sumSquares_div (l : list R) (m : R) :
  m <> 0 -> sumSquares (map (fun v => v / m) l) = sumSquares l / (m * m).
Proof.
  intros Hm. induction l as [|v l IH]; simpl.
  - unfold Rdiv. rewrite Rmult_0_l. reflexivity.
  - rewrite IH. field. exact Hm.
Qed.

(** The text that the loop hashes has a code unit other than NUL. *)
Definition hashable (text : string) : Prop :=
  exists c, In c (trim (toLowerCase (list_ascii_of_string text)))
            /\ code c <> 0%N.

Lemma rawEmbedding_magnitude_pos (text : string) :
  hashable text -> 0 < magnitude (rawEmbedding text).
Proof.
  intros H. unfold rawEmbedding.
  destruct (hashInto_positive
              (trim (toLowerCase (list_ascii_of_string text)))
              (replicate 384 0) 0) as (j & y & Hy & Hpos).
  - apply Forall_replicate. lra.
  - rewrite length_replicate. lia.
  - exact H.
  - unfold magnitude. apply sqrt_lt_R0.
    pose proof (sumSquares_lookup _ j y Hy). nra.
Qed.

Lemma fallbackEmbedding_unit (text : string) :
  hashable text -> magnitude (fallbackEmbedding text) = 1.
Proof.
  intros H. pose proof (rawEmbedding_magnitude_pos text H) as Hm.
  rewrite fallbackEmbedding_raw.
  apply Rltb_true in Hm as Hg. unfold Rgtb. rewrite Hg.
  unfold magnitude at 1. rewrite sumSquares_div by lra.
  rewrite magnitude_sqr. rewrite Rdiv_diag; [apply sqrt_1 |].
  rewrite <- magnitude_sqr. nra.
Qed.

Lemma alter_replicate_fixed (f : R -> R) (k n : nat) (x : R) :
  f x = x -> alter f k (replicate n x) = replicate n x.
Proof.
  intros Hf. revert k. induction n as [|n IH]; intros k; [reflexivity |].
  destruct k as [|k]; simpl; [rewrite Hf; reflexivity |].
  f_equal. apply IH.
Qed.

Lemma hashInto_nothing (s : list ascii) (n i : nat) :
  Forall (fun c => code c = 0%N) s ->
  hashInto (replicate n 0) i s = replicate n 0.
Proof.
  intros Hs. revert i. induction Hs as [|c s Hc Hs IH]; intros i; simpl;
    [reflexivity |].
  rewrite Hc, alter_replicate_fixed; [apply IH |].
  simpl. lra.
Qed.

Lemma fallbackEmbedding_zero (text : string) :
  ~ hashable text -> fallbackEmbedding text = replicate 384 0.
Proof.
  intros H. rewrite fallbackEmbedding_raw.
  assert (Hraw : rawEmbedding text = replicate 384 0).
  { unfold rawEmbedding. apply hashInto_nothing.
    apply List.Forall_forall. intros c Hc.
    destruct (N.eq_dec (code c) 0%N) as [H0 | H0]; [exact H0 |].
    exfalso. apply H. exists c. split; assumption. }
  rewrite Hraw. unfold magnitude. rewrite sumSquares_replicate_0, sqrt_0.
  assert (Hg : Rgtb 0 0 = false) by (apply Rltb_false; lra).
  rewrite Hg. generalize 384%nat. intros n.
  induction n as [|n IH]; simpl; [reflexivity |].
  rewrite IH. reflexivity.
Qed.

Lemma dot_nonneg (a b : list R) : nonneg a -> nonneg b -> 0 <= dot a b.
Proof.
  intros Ha. revert b. induction Ha as [|x a Hx Ha IH]; intros b Hb.
  - destruct b; simpl; lra.
  - destruct Hb as [|y b Hy Hb]; simpl; [lra |].
    specialize (IH b Hb). nra.
Qed.

Lemma cosineSimilarity_nonneg (a b : list R) :
  nonneg a -> nonneg b -> 0 <= cosineSimilarity a b.
Proof.
  intros Ha Hb. rewrite cosineSimilarity_sums.
  destruct (negb _); [lra |]. destruct (_ || _); [lra |].
  apply Rmult_le_pos; [apply dot_nonneg; assumption |].
  destruct (Req_dec (magnitude a * magnitude b) 0) as [H0 | H0].
  - rewrite H0, Rinv_0. lra.
  - apply Rlt_le, Rinv_0_lt_compat.
    pose proof (sqrt_pos (sumSquares a)). pose proof (sqrt_pos (sumSquares b)).
    unfold magnitude in *. nra.
Qed.

(** *** The fallback embedding of a normal form *)

Lemma trimStart_In (c : ascii) (s : list ascii) :
  In c s -> isSpace c = false -> In c (trimStart s).
Proof.
  intros Hin Hc. induction s as [|x s IH]; [destruct Hin |].
  simpl. destruct (isSpace x) eqn:Hx; [| exact Hin].
  destruct Hin as [-> | Hin]; [congruence | apply IH, Hin].
Qed.

Lemma trimEnd_In (c : ascii) (s : list ascii) :
  In c s -> isSpace c = false -> In c (trimEnd s).
Proof.
  intros Hin Hc. induction s as [|x s IH]; [destruct Hin |].
  simpl. destruct Hin as [-> | Hin].
  - destruct (trimEnd s); [rewrite Hc |]; left; reflexivity.
  - specialize (IH Hin). destruct (trimEnd s); [destruct IH | right; exact IH].
Qed.

Lemma isClean_code (c : ascii) : Normalizer.isClean c = true -> code c <> 0%N.
Proof. Normalizer.each_char c. Qed.

Lemma normal_form_hashable (address : string) :
  (exists c, In c (list_ascii_of_string (normalizeAddress address))
             /\ isSpace c = false) ->
  hashable (normalizeAddress address).
Proof.
  intros (c & Hin & Hc). exists c.
  rewrite Normalizer.normalizeAddress_chars in *.
  pose proof (Normalizer.normalizeChars_clean (list_ascii_of_string address))
    as Hclean.
  rewrite Normalizer.toLowerCase_clean by exact Hclean.
  split; [apply trimEnd_In; [apply trimStart_In |]; assumption |].
  apply isClean_code. exact (proj1 (List.Forall_forall _ _) Hclean c Hin).
Qed.

End OllamaFacts.

(** ** The geocoding service *)

Module GeocodingFacts.
Import Distance GeocodingService Normalizer.

Lemma orElse_truthy (a b : option string) :
  truthy (orElse a b) = truthy a || truthy b.
Proof. unfold orElse. destruct (truthy a) eqn:H; [exact H | reflexivity]. Qed.

Lemma orElse_first (a b : option string) : truthy a = true -> orElse a b = a.
Proof. unfold orElse. intros ->. reflexivity. Qed.

Lemma orElse_second (a b : option string) : truthy a = false -> orElse a b = b.
Proof. unfold orElse. intros ->. reflexivity. Qed.

Lemma chars_append (s t : string) :
  list_ascii_of_string (String.append s t)
  = list_ascii_of_string s ++ list_ascii_of_string t.
Proof. induction s as [|c s IH]; simpl; [reflexivity | rewrite IH; reflexivity]. Qed.

Lemma includes_app (before needle after : list ascii) :
  includes (before ++ needle ++ after) needle = true.
Proof.
  induction before as [|c before IH].
  - simpl app. destruct (needle ++ after) eqn:Heq; simpl;
      rewrite <- Heq, stripPrefix_app; reflexivity.
  - simpl. destruct (stripPrefix needle (c :: before ++ needle ++ after));
      [reflexivity | exact IH].
Qed.

(** Inserting a suggestion that mentions Maharashtra, and one that does
    not, into an array that has those that do in front. *)
Lemma insertBy_mh (x : Suggestion) (l : list Suggestion) :
  isMH x = true -> insertBy mhFirst x l = x :: l.
Proof.
  intros Hx. destruct l as [|y l]; [reflexivity |]. simpl.
  unfold mhFirst. rewrite Hx. simpl. destruct (isMH y); reflexivity.
Qed.

Lemma insertBy_other (x : Suggestion) (front back : list Suggestion) :
  isMH x = false ->
  Forall (fun y => isMH y = true) front ->
  Forall (fun y => isMH y = false) back ->
  insertBy mhFirst x (front ++ back) = front ++ x :: back.
Proof.
  intros Hx Hfront Hback. induction Hfront as [|y front Hy _ IH]; simpl.
  - destruct Hback as [|y back Hy _]; [reflexivity |]. simpl.
    unfold mhFirst. rewrite Hx, Hy. reflexivity.
  - unfold mhFirst at 1. rewrite Hx, Hy. simpl. rewrite IH. reflexivity.
Qed.

Lemma sortBy_mhFirst (l : list Suggestion) :
  sortBy mhFirst l
  = List.filter isMH l ++ List.filter (fun y => negb (isMH y)) l.
Proof.
  induction l as [|x l IH]; [reflexivity |].
  simpl. rewrite IH. destruct (isMH x) eqn:Hx; simpl.
  - apply insertBy_mh, Hx.
  - apply insertBy_other; [exact Hx | |];
      apply List.Forall_forall; intros y Hy; apply filter_In in Hy as [_ Hy].
    + exact Hy.
    + apply negb_true_iff, Hy.
Qed.

Lemma suggestions_length (data : list Place) (results : list Suggestion) :
  suggestions data = Some results -> length results = length data.
Proof.
  revert results. induction data as [|p data IH]; intros results; simpl.
  - intros [= <-]. reflexivity.
  - destruct (placeAddress p); [| discriminate].
    destruct (suggestions data) as [rs |]; [| discriminate].
    intros [= <-]. simpl. rewrite (IH rs); reflexivity.
Qed.

End GeocodingFacts.

(** * The claims *)

Import Distance SemanticCache DistanceFacts Matching Store Normalizer.

(** A service that holds the given entries, and entries on the equator. *)
Definition serviceOf (entries : list CacheEntry) : Service :=
  {| cache := NodeCache.create CACHE_TTL; cacheEntries := entries |}.

Definition equatorEntry (lng0 : R) (embedding : list R) (t : Z) : CacheEntry :=
  newEntry "Pune" "pune"
    {| rLat := 0%R; rLng := lng0; rDisplayName := "Pune";
       rStructured := rStructured somewhere; source := FromApi |}
    embedding t.

(** The longitude, in degrees, of the point of the equator [m] metres east
    of longitude 0. *)
Definition metresEast (m : R) : R := (m / 6371000 * 180 / PI)%R.

Lemma apart_metresEast (m : R) embA embB tA tB :
  (0 <= m < 6371000)%R ->
  apart (equatorEntry 0 embA tA) (equatorEntry (metresEast m) embB tB) = m.
Proof.
  intros Hm. unfold apart, equatorEntry, metresEast. simpl.
  rewrite haversineDistance_equator.
  - field.
  - pose proof PI2_1. split.
    + apply Rmult_le_pos; [lra |]. apply Rlt_le, Rinv_0_lt_compat. lra.
    + apply Rlt_trans with 1%R; [| lra].
      apply Rmult_lt_reg_r with 6371000%R; [lra |].
      unfold Rdiv. rewrite Rmult_assoc, Rinv_l by lra. lra.
Qed.

Lemma within_metresEast (m radius : R) emb t :
  (0 <= m < 6371000)%R -> (m < radius)%R ->
  within 0 0 radius (equatorEntry (metresEast m) emb t).
Proof.
  intros Hm Hr. unfold within.
  change (haversineDistance 0 0 (lat (equatorEntry (metresEast m) emb t))
            (lng (equatorEntry (metresEast m) emb t)))
    with (apart (equatorEntry 0 [] 0) (equatorEntry (metresEast m) emb t)).
  rewrite apart_metresEast by exact Hm. exact Hr.
Qed.

Lemma isCandidate_unit lng0 t : isCandidate [1%R] (equatorEntry lng0 [1%R] t) = true.
Proof.
  unfold isCandidate, similarityTo, Rgtb. simpl embedding.
  rewrite cosineSimilarity_unit. apply Rltb_true.
  unfold SIMILARITY_THRESHOLD. lra.
Qed.

(** C1: [findSimilar] scans the entries in order; the first entry whose
    similarity exceeds the threshold becomes the provisional best, a later
    one replaces it exactly when it exceeds the threshold, exceeds the
    similarity of the provisional best and lies under the distance threshold
    from it ([selectBest]); the result is none exactly when no entry exceeds
    the threshold.  A candidate 800 m from the provisional best never
    replaces it; in particular not the second of two candidates. *)
Theorem findSimilar_selection_policy :
  forall (svc : Service) (key : string) (q : list R),
    findSimilar svc key q = selectBest q (cacheEntries svc) /\
    (findSimilar svc key q = None <->
     Forall (fun e => isCandidate q e = false) (cacheEntries svc)) /\
    (forall best score e,
        apart e best = 800%R ->
        findSimilarStep q {| bestMatch := Some best; bestScore := score |} e
        = {| bestMatch := Some best; bestScore := score |}) /\
    (forall e1 e2,
        cacheEntries svc = [e1; e2] ->
        isCandidate q e1 = true -> isCandidate q e2 = true ->
        apart e2 e1 = 800%R ->
        findSimilar svc key q = Some e1).
Proof.
  intros svc key q. split; [apply findSimilar_selectBest |].
  split; [rewrite findSimilar_selectBest; apply selectBest_None |].
  split.
  - intros best score e H. apply findSimilarStep_far.
    rewrite H. unfold DISTANCE_THRESHOLD. lra.
  - intros e1 e2 Hentries H1 H2 Hfar.
    rewrite findSimilar_selectBest, Hentries. simpl. rewrite H1.
    rewrite overrides_far; [reflexivity |].
    rewrite Hfar. unfold DISTANCE_THRESHOLD. lra.
Qed.

Lemma findSimilar_selection_policy_witness :
  findSimilar
    (serviceOf [equatorEntry (metresEast 800) [1%R] 0; equatorEntry 0 [1%R] 1])
    "pune" [1%R]
  = Some (equatorEntry (metresEast 800) [1%R] 0).
Proof.
  apply (proj2 (proj2 (proj2
           (findSimilar_selection_policy
              (serviceOf [equatorEntry (metresEast 800) [1%R] 0;
                          equatorEntry 0 [1%R] 1])
              "pune" [1%R])))
           (equatorEntry (metresEast 800) [1%R] 0) (equatorEntry 0 [1%R] 1)).
  - reflexivity.
  - apply isCandidate_unit.
  - apply isCandidate_unit.
  - apply apart_metresEast. lra.
Defined.

(** C3: [findNearby] returns the first entry, in insertion order, whose
    distance to the coordinates is strictly less than the radius, and none
    when no entry is that close; the reverse path calls it with 100 metres.
    The entry returned is the first match: a later entry can be closer. *)
Theorem findNearby_first_within_radius :
  (forall svc lat0 lng0 radius e,
      findNearby svc lat0 lng0 radius = Some e <->
      exists before after,
        cacheEntries svc = before ++ e :: after /\
        Forall (fun x => ~ within lat0 lng0 radius x) before /\
        within lat0 lng0 radius e) /\
  (forall svc lat0 lng0 radius,
      findNearby svc lat0 lng0 radius = None <->
      Forall (fun x => ~ within lat0 lng0 radius x) (cacheEntries svc)) /\
  (forall svc env lat0 lng0 e,
      findNearby svc lat0 lng0 100 = Some e ->
      reverseGeocodeWithCache svc env lat0 lng0 = (Some (fromCache e), svc)) /\
  (forall svc env lat0 lng0,
      findNearby svc lat0 lng0 100 = None ->
      fst (reverseGeocodeWithCache svc env lat0 lng0) = reverseGeocode env lat0 lng0) /\
  (exists svc lat0 lng0 radius first closer,
      findNearby svc lat0 lng0 radius = Some first /\
      In closer (cacheEntries svc) /\
      (haversineDistance lat0 lng0 (lat closer) (lng closer)
       < haversineDistance lat0 lng0 (lat first) (lng first))%R).
Proof.
  split; [intros; apply findNearbyIn_Some |].
  split; [intros; apply findNearbyIn_None |].
  split; [| split].
  - intros svc env lat0 lng0 e H. unfold reverseGeocodeWithCache.
    rewrite H. reflexivity.
  - intros svc env lat0 lng0 H. unfold reverseGeocodeWithCache. rewrite H.
    destruct (reverseGeocode env lat0 lng0); reflexivity.
  - set (first := equatorEntry (metresEast 90) [] 0).
    set (closer := equatorEntry (metresEast 10) [] 1).
    assert (Hfirst : apart (equatorEntry 0 [] 0) first = 90%R)
      by (apply apart_metresEast; lra).
    assert (Hcloser : apart (equatorEntry 0 [] 0) closer = 10%R)
      by (apply apart_metresEast; lra).
    exists (serviceOf [first; closer]), 0%R, 0%R, 100%R, first, closer.
    split; [| split].
    + apply findNearbyIn_Some. exists [], [closer].
      split; [reflexivity |]. split; [constructor |].
      apply within_metresEast; lra.
    + right. left. reflexivity.
    + change (apart (equatorEntry 0 [] 0) closer
              < apart (equatorEntry 0 [] 0) first)%R.
      rewrite Hfirst, Hcloser. lra.
Qed.

Lemma findNearby_first_within_radius_witness :
  reverseGeocodeWithCache
    (serviceOf [equatorEntry (metresEast 60) [] 0]) (dupEnv 1) 0 0
  = (Some (fromCache (equatorEntry (metresEast 60) [] 0)),
     serviceOf [equatorEntry (metresEast 60) [] 0]).
Proof.
  apply (proj1 (proj2 (proj2 findNearby_first_within_radius))).
  apply (proj2 (proj1 findNearby_first_within_radius
                  (serviceOf [equatorEntry (metresEast 60) [] 0])
                  0%R 0%R 100%R (equatorEntry (metresEast 60) [] 0))).
  exists [], []. split; [reflexivity |]. split; [constructor |].
  apply within_metresEast; lra.
Defined.


Lemma magnitude_3_4 : magnitude [3%R; 4%R] = 5%R.
Proof.
  unfold magnitude. simpl.
  replace (3 * 3 + (4 * 4 + 0))%R with (5 * 5)%R by ring.
  apply sqrt_square. lra.
Qed.


(** C2: whatever happens to the service, the ordered sequence never holds
    more than 1000 entries; after the insertions [calls] into an empty cache
    it holds the last 1000 of them in insertion order; an insertion that
    evicts removes the entry at index 0 and nothing else.  After 1001
    insertions the first entry is gone and the 1000 later ones are there. *)
Theorem capacity_fifo :
  (forall evs : list Event, (length (cacheEntries (run evs)) <= 1000)%nat) /\
  (forall calls : list StoreCall,
      (length (cacheEntries (storeAll calls)) <= 1000)%nat /\
      cacheEntries (storeAll calls)
      = drop (length calls - 1000) (map entryOf calls)) /\
  (forall svc a n r emb t,
      evicts svc = true ->
      exists oldest rest,
        cacheEntries svc = oldest :: rest /\
        cacheEntries (store svc a n r emb t) = rest ++ [newEntry a n r emb t]) /\
  (forall (first : StoreCall) (calls : list StoreCall),
      length (first :: calls) = 1001%nat ->
      cacheEntries (storeAll (first :: calls)) = map entryOf calls /\
      (forall c, In c calls ->
                 In (entryOf c) (cacheEntries (storeAll (first :: calls)))) /\
      (List.NoDup (map entryOf (first :: calls)) ->
       ~ In (entryOf first) (cacheEntries (storeAll (first :: calls))))).
Proof.
  split; [| split; [| split]].
  - intros evs. apply fold_step_length. simpl. lia.
  - intros calls. rewrite storeAll_cacheEntries. split; [| reflexivity].
    rewrite length_drop, length_map. lia.
  - intros svc a n r emb t H.
    destruct (store_evicting svc a n r emb t H) as (oldest & rest & H1 & H2 & _).
    exists oldest, rest. split; assumption.
  - intros first calls Hlen.
    assert (Heq : cacheEntries (storeAll (first :: calls)) = map entryOf calls).
    { rewrite storeAll_cacheEntries, Hlen.
      replace (1001 - 1000)%nat with 1%nat by lia. reflexivity. }
    rewrite Heq. split; [reflexivity |]. split.
    + intros c Hc. apply in_map, Hc.
    + intros Hnodup. simpl map in Hnodup.
      apply List.NoDup_cons_iff in Hnodup as [Hnotin _]. exact Hnotin.
Qed.

Lemma capacity_fifo_witness :
  cacheEntries (storeAll (dupCall 0 :: map dupCall (seq 1 1000)))
  = map entryOf (map dupCall (seq 1 1000)).
Proof.
  refine (proj1 (proj2 (proj2 (proj2 capacity_fifo))
                   (dupCall 0) (map dupCall (seq 1 1000)) _)).
  change (S (length (map dupCall (seq 1 1000))) = 1001%nat).
  rewrite length_map, length_seq. reflexivity.
Defined.

(** C7: when the geocoding provider has no result, the call leaves the
    service as it was, both the ordered sequence and the keyed store, and
    on a cache miss it answers none; so on the forward path and on the
    reverse path. *)
Theorem provider_miss_leaves_cache :
  (forall svc env address,
      geocode env address = None ->
      snd (geocodeWithCache svc env address) = svc) /\
  (forall svc env address,
      findSimilar svc (normalizeAddress address)
        (generateEmbedding env (normalizeAddress address)) = None ->
      geocode env address = None ->
      geocodeWithCache svc env address = (None, svc)) /\
  (forall svc env lat0 lng0,
      reverseGeocode env lat0 lng0 = None ->
      snd (reverseGeocodeWithCache svc env lat0 lng0) = svc) /\
  (forall svc env lat0 lng0,
      findNearby svc lat0 lng0 100 = None ->
      reverseGeocode env lat0 lng0 = None ->
      reverseGeocodeWithCache svc env lat0 lng0 = (None, svc)).
Proof.
  split; [| split; [| split]].
  - intros svc env a H. unfold geocodeWithCache. cbv zeta. rewrite H.
    destruct (findSimilar _ _ _); reflexivity.
  - intros svc env a Hmiss H. unfold geocodeWithCache. cbv zeta.
    rewrite Hmiss, H. reflexivity.
  - intros svc env la lo H. unfold reverseGeocodeWithCache. rewrite H.
    destruct (findNearby _ _ _ _); reflexivity.
  - intros svc env la lo Hmiss H. unfold reverseGeocodeWithCache.
    rewrite Hmiss, H. reflexivity.
Qed.

(** A provider that is down. *)
Definition offline : Env :=
  {| generateEmbedding := fun _ => [1%R];
     geocode := fun _ => None;
     reverseGeocode := fun _ _ => None;
     now := 0 |}.

Lemma provider_miss_leaves_cache_witness :
  geocodeWithCache create offline "MG Road, Pune" = (None, create) /\
  reverseGeocodeWithCache create offline 0 0 = (None, create).
Proof.
  split.
  - apply (proj1 (proj2 provider_miss_leaves_cache)); reflexivity.
  - apply (proj2 (proj2 (proj2 provider_miss_leaves_cache))); reflexivity.
Defined.

(** C10: in every state that the public methods (and the expiry of the
    keyed store) can reach, [getStats] reports 0 hits and 0 misses: the
    service never looks a key up, and a lookup ([NodeCache.get]) is the only
    operation of the keyed store that counts. *)
Theorem stats_never_count :
  (forall evs : list Event,
      statHits (getStats (run evs)) = 0%nat /\
      statMisses (getStats (run evs)) = 0%nat) /\
  (forall (c : NodeCache.t CacheEntry) (t : Z) (key : string),
      (NodeCache.hits (snd (NodeCache.get t key c))
       + NodeCache.misses (snd (NodeCache.get t key c)))%nat
      = S (NodeCache.hits c + NodeCache.misses c)).
Proof.
  split.
  - intros evs. apply (fold_step_uncounted evs create). split; reflexivity.
  - intros c t key. unfold NodeCache.get.
    destruct (NodeCache.data c !! key) as [r |]; [destruct (NodeCache.expired t r) |];
      simpl; lia.
Qed.

(** C8: [findSimilar] and [findNearby] do not read the time stamps: on two
    states whose entries differ at most in their time stamps they select
    entries at the same position, and the public calls answer the same.
    The expiry of the keyed store removes expired keys and leaves the
    ordered sequence alone, so an entry older than the time to live is still
    returned as a cache hit. *)
Theorem matching_ignores_timestamps :
  (forall svc1 svc2 key q,
      Forall2 sameButTimestamp (cacheEntries svc1) (cacheEntries svc2) ->
      option_Forall2 sameButTimestamp
        (findSimilar svc1 key q) (findSimilar svc2 key q)) /\
  (forall svc1 svc2 lat0 lng0 radius,
      Forall2 sameButTimestamp (cacheEntries svc1) (cacheEntries svc2) ->
      option_Forall2 sameButTimestamp
        (findNearby svc1 lat0 lng0 radius) (findNearby svc2 lat0 lng0 radius)) /\
  (forall svc1 svc2 env address,
      Forall2 sameButTimestamp (cacheEntries svc1) (cacheEntries svc2) ->
      fst (geocodeWithCache svc1 env address)
      = fst (geocodeWithCache svc2 env address)) /\
  (forall svc1 svc2 env lat0 lng0,
      Forall2 sameButTimestamp (cacheEntries svc1) (cacheEntries svc2) ->
      fst (reverseGeocodeWithCache svc1 env lat0 lng0)
      = fst (reverseGeocodeWithCache svc2 env lat0 lng0)) /\
  (forall svc t,
      cacheEntries (step svc (Expire t)) = cacheEntries svc /\
      (forall key r,
          NodeCache.data (cache (step svc (Expire t))) !! key = Some r ->
          NodeCache.expired t r = false)) /\
  (forall svc env address e,
      findSimilar svc (normalizeAddress address)
        (generateEmbedding env (normalizeAddress address)) = Some e ->
      (timestamp e + CACHE_TTL * 1000 < now env)%Z ->
      geocodeWithCache (step svc (Expire (now env))) env address
      = (Some (fromCache e), step svc (Expire (now env)))).
Proof.
  split; [| split; [| split; [| split; [| split]]]].
  - intros svc1 svc2 key q H. rewrite !findSimilar_selectBest.
    apply selectBest_retimed, H.
  - intros svc1 svc2 la lo radius H. apply findNearbyIn_retimed, H.
  - intros svc1 svc2 env a H. unfold geocodeWithCache. cbv zeta.
    rewrite !findSimilar_selectBest.
    destruct (selectBest_retimed
                (generateEmbedding env (normalizeAddress a)) _ _ H)
      as [e1 e2 He |].
    + apply sameButTimestamp_fields in He as (_ & _ & _ & ->). reflexivity.
    + destruct (geocode env a); reflexivity.
  - intros svc1 svc2 env la lo H. unfold reverseGeocodeWithCache, findNearby.
    destruct (findNearbyIn_retimed _ _ la lo 100%R H) as [e1 e2 He |].
    + apply sameButTimestamp_fields in He as (_ & _ & _ & ->). reflexivity.
    + destruct (reverseGeocode env la lo); reflexivity.
  - intros svc t. split; [reflexivity |].
    intros key r H. simpl in H.
    apply map_lookup_filter_Some in H as [_ H]. exact H.
  - intros svc env a e Hhit _. unfold geocodeWithCache. cbv zeta.
    change (findSimilar (step svc (Expire (now env))))
      with (findSimilar svc).
    rewrite Hhit. reflexivity.
Qed.

(** An entry stored at instant 0 and looked for a day and a second later. *)
Definition dayLater : Env :=
  {| generateEmbedding := fun _ => [1%R];
     geocode := fun _ => None;
     reverseGeocode := fun _ _ => None;
     now := 86401000 |}.

Lemma matching_ignores_timestamps_witness :
  geocodeWithCache
    (step (serviceOf [equatorEntry 0 [1%R] 0]) (Expire 86401000)) dayLater "Pune"
  = (Some (fromCache (equatorEntry 0 [1%R] 0)),
     step (serviceOf [equatorEntry 0 [1%R] 0]) (Expire 86401000)).
Proof.
  refine (proj2 (proj2 (proj2 (proj2 (proj2 matching_ignores_timestamps))))
            (serviceOf [equatorEntry 0 [1%R] 0]) dayLater "Pune"
            (equatorEntry 0 [1%R] 0) _ _).
  - rewrite findSimilar_selectBest. simpl selectBest.
    change (generateEmbedding dayLater (normalizeAddress "Pune")) with [1%R].
    rewrite isCandidate_unit. reflexivity.
  - reflexivity.
Defined.

(** C9, as the code has it: at capacity an insertion removes the entry at
    index 0 from the ordered sequence, where the other entries stay in
    their order with the new entry behind them, and deletes the key of the
    removed entry from the keyed store, where the new entry is bound to its
    key and every binding under another key stays as it was.  The keyed
    store holds one binding per key: an entry that shares the key of the
    removed entry loses its binding. *)
Theorem eviction_frame :
  forall svc a n r emb t,
    length (cacheEntries svc) = 1000%nat ->
    exists oldest rest,
      cacheEntries svc = oldest :: rest /\
      cacheEntries (store svc a n r emb t) = rest ++ [newEntry a n r emb t] /\
      NodeCache.data (cache (store svc a n r emb t)) !! entryKey oldest = None /\
      (keyOf n <> entryKey oldest ->
       NodeCache.data (cache (store svc a n r emb t)) !! keyOf n
       = Some (NodeCache.livetime (cache svc) t, newEntry a n r emb t)) /\
      (forall key,
          key <> entryKey oldest -> key <> keyOf n ->
          NodeCache.data (cache (store svc a n r emb t)) !! key
          = NodeCache.data (cache svc) !! key).
Proof.
  intros svc a n r emb t Hfull.
  destruct (store_evicting svc a n r emb t (evicts_at_capacity svc Hfull))
    as (oldest & rest & H1 & H2 & H3).
  exists oldest, rest. rewrite H3.
  split; [exact H1 |]. split; [exact H2 |]. split; [| split].
  - apply lookup_delete_eq.
  - intros Hne. rewrite lookup_delete_ne by congruence.
    apply lookup_insert_eq.
  - intros key Hk1 Hk2. rewrite lookup_delete_ne by congruence.
    apply lookup_insert_ne. congruence.
Qed.

Lemma eviction_frame_witness :
  exists oldest rest,
    cacheEntries dupState = oldest :: rest /\
    cacheEntries (store dupState "y" "y" somewhere [] 1000)
    = rest ++ [newEntry "y" "y" somewhere [] 1000].
Proof.
  destruct (eviction_frame dupState "y" "y" somewhere [] 1000 dupState_length)
    as (oldest & rest & H1 & H2 & _).
  exists oldest, rest. split; assumption.
Defined.

(** C9, as the spec has it, fails on a state that a thousand requests
    reach: all thousand entries have one key; the next insertion evicts the
    oldest of them and with it the binding of the key, which is the binding
    of the newest of them, an entry that stays in the ordered sequence. *)
Lemma eviction_unbinds_surviving_duplicate :
  length (cacheEntries dupState) = 1000%nat /\
  dupAfter = store dupState "y" (normalizeAddress "y") somewhere [] 1000 /\
  In dupSurvivor (cacheEntries dupAfter) /\
  (exists expiry,
      NodeCache.data (cache dupState) !! entryKey dupSurvivor
      = Some (expiry, dupSurvivor)) /\
  NodeCache.data (cache dupAfter) !! entryKey dupSurvivor = None.
Proof.
  split; [apply dupState_length |].
  split; [apply dupAfter_store |].
  split; [apply dupAfter_survivor |].
  split; [apply dupState_bound | apply dupAfter_unbound].
Qed.






(** C5, as the code has it: the output of [normalizeAddress] consists of
    lower-case letters, digits, underscores and spaces (U+0020); step 4
    keeps exactly the word characters [[A-Za-z0-9_]] and the white space,
    so an underscore passes. *)
Theorem normalizeAddress_output_clean :
  (forall x : string,
      Forall (fun c => isLowerWord c = true \/ c = space)
        (list_ascii_of_string (normalizeAddress x))) /\
  (forall (s : list ascii) (c : ascii),
      In c (stripPunctuation s) <-> In c s /\ isWord c || isSpace c = true) /\
  isWord "_"%char = true.
Proof.
  split; [| split].
  - intros x. rewrite normalizeAddress_chars.
    eapply Forall_impl; [apply normalizeChars_clean |].
    intros c Hc. apply isClean_cases, Hc.
  - intros s c. unfold stripPunctuation. apply filter_In.
  - reflexivity.
Qed.

(** C5, as the spec has it, fails: the underscore of ["a_b"] is neither
    alphanumeric nor white space and is in the output. *)
Lemma normalizeAddress_keeps_underscore :
  normalizeAddress "a_b" = "a_b" /\
  ~ Forall (fun c => isAlphanumeric c || isSpace c = true)
      (list_ascii_of_string (normalizeAddress "a_b")).
Proof.
  split; [reflexivity |].
  assert (Hout : normalizeAddress "a_b" = "a_b") by reflexivity.
  rewrite Hout. intros H.
  apply (proj1 (List.Forall_forall _ _)) with (x := "_"%char) in H.
  - vm_compute in H. discriminate H.
  - simpl. tauto.
Qed.

(** * More properties of the code *)

Import CacheFacts OllamaFacts GeocodingFacts.

(** ** distance.ts *)

(** X1: the distance from one point to another is the distance back. *)
Theorem haversineDistance_symmetric :
  forall lat1 lng1 lat2 lng2 : R,
    haversineDistance lat1 lng1 lat2 lng2 = haversineDistance lat2 lng2 lat1 lng1.
Proof.
  intros. rewrite !haversineDistance_a, (haversineA_sym lat1 lng1 lat2 lng2).
  reflexivity.
Qed.


(** X3: for latitudes between -90 and 90 the variable [a] of
    [haversineDistance] is within [0, 1], so that both square roots are
    taken of numbers that are not negative, and the distance is between 0
    and half the circumference of the sphere. *)
Theorem haversineDistance_bounds :
  forall lat1 lng1 lat2 lng2 : R,
    (-90 <= lat1 <= 90)%R -> (-90 <= lat2 <= 90)%R ->
    (0 <= haversineA lat1 lng1 lat2 lng2 <= 1)%R /\
    (0 <= haversineDistance lat1 lng1 lat2 lng2 <= 6371000 * PI)%R.
Proof.
  intros lat1 lng1 lat2 lng2 H1 H2.
  split; [apply haversineA_range; assumption | apply haversineDistance_range].
Qed.

Lemma haversineDistance_bounds_witness :
  (0 <= haversineA 18.5285 73.8741 18.5290 73.8745 <= 1)%R /\
  (0 <= haversineDistance 18.5285 73.8741 18.5290 73.8745 <= 6371000 * PI)%R.
Proof. apply haversineDistance_bounds; lra. Defined.

(** X4: over the reals, along a meridian and along the equator the
    distance is the radius times the difference of the coordinates in
    radians, for differences under 180 degrees.  (The equality is one of
    real numbers; the code computes in binary64 and rounds.) *)
Theorem haversineDistance_along_axes :
  (forall lat1 lat2 lng0 : R,
      (Rabs (lat2 - lat1) < 180)%R ->
      haversineDistance lat1 lng0 lat2 lng0
      = (6371000 * (Rabs (lat2 - lat1) * PI / 180))%R) /\
  (forall lng1 lng2 : R,
      (Rabs (lng2 - lng1) < 180)%R ->
      haversineDistance 0 lng1 0 lng2
      = (6371000 * (Rabs (lng2 - lng1) * PI / 180))%R).
Proof.
  split; [exact haversineDistance_meridian | exact haversineDistance_on_equator].
Qed.

Lemma haversineDistance_along_axes_witness :
  haversineDistance 18 73 19 73 = (6371000 * (Rabs (19 - 18) * PI / 180))%R /\
  haversineDistance 0 73 0 74 = (6371000 * (Rabs (74 - 73) * PI / 180))%R.
Proof.
  split.
  - apply (proj1 haversineDistance_along_axes). apply Rabs_def1; lra.
  - apply (proj2 haversineDistance_along_axes). apply Rabs_def1; lra.
Defined.

(** X5: the similarity of two vectors does not depend on their order. *)
Theorem cosineSimilarity_symmetric :
  forall vec1 vec2 : list R,
    cosineSimilarity vec1 vec2 = cosineSimilarity vec2 vec1.
Proof. exact cosineSimilarity_comm. Qed.

(** X6: a vector that is not of magnitude zero has similarity 1 to
    itself. *)
Theorem cosineSimilarity_of_itself :
  forall vec : list R, magnitude vec <> 0%R -> cosineSimilarity vec vec = 1%R.
Proof. exact cosineSimilarity_self. Qed.

Lemma cosineSimilarity_of_itself_witness :
  cosineSimilarity [3%R; 4%R] [3%R; 4%R] = 1%R.
Proof.
  apply cosineSimilarity_of_itself. rewrite magnitude_3_4. lra.
Defined.

(** X7: over the reals, stretching either vector by a positive factor
    leaves the similarity as it is.  (In binary64 the last digit of the
    result can change with the factor.) *)
Theorem cosineSimilarity_scale_invariant :
  forall (k : R) (vec1 vec2 : list R),
    (0 < k)%R ->
    cosineSimilarity (scale k vec1) vec2 = cosineSimilarity vec1 vec2 /\
    cosineSimilarity vec1 (scale k vec2) = cosineSimilarity vec1 vec2.
Proof.
  intros k vec1 vec2 Hk. split; [apply cosineSimilarity_scale, Hk |].
  rewrite cosineSimilarity_comm, cosineSimilarity_scale by exact Hk.
  apply cosineSimilarity_comm.
Qed.

Lemma cosineSimilarity_scale_invariant_witness :
  cosineSimilarity (scale 2 [3%R; 4%R]) [1%R; 0%R]
  = cosineSimilarity [3%R; 4%R] [1%R; 0%R].
Proof. apply (cosineSimilarity_scale_invariant 2). lra. Defined.

(** X8: an address of white space only, the empty one among them, has the
    empty normal form. *)
Theorem normalizeAddress_blank :
  forall x : string,
    spaces (list_ascii_of_string x) -> normalizeAddress x = EmptyString.
Proof.
  intros x Hx. unfold normalizeAddress.
  rewrite normalizeChars_spaces by exact Hx. reflexivity.
Qed.

Lemma normalizeAddress_blank_witness : normalizeAddress "   " = EmptyString.
Proof. apply normalizeAddress_blank. repeat constructor. Defined.

(** X9: on words with white space between and around them, the normal
    form consists of the words in lower case, those that are one of the
    five abbreviations replaced by their expansions, with single spaces
    between them. *)
Theorem normalizeAddress_words :
  forall (lead w : list ascii) (ws : list (list ascii * list ascii))
         (trail : list ascii),
    spaces lead -> spaces trail -> Word w ->
    Forall (fun p => Separator (fst p) /\ Word (snd p)) ws ->
    normalizeAddress (string_of_list_ascii (lead ++ (w ++ separated ws) ++ trail))
    = string_of_list_ascii
        (unwords (map (fun x => expandToken (toLowerCase x)) (w :: map snd ws))).
Proof.
  intros lead w ws trail Hl Ht Hw Hws. unfold normalizeAddress.
  rewrite list_ascii_of_string_of_list_ascii.
  rewrite normalizeChars_separated by assumption. reflexivity.
Qed.

Lemma normalizeAddress_words_witness :
  normalizeAddress
    (string_of_list_ascii
       (lit " " ++ (lit "MG" ++ separated [(lit "  ", lit "Rd"); (lit " ", lit "Pune")])
        ++ lit ""))
  = string_of_list_ascii
      (unwords (map (fun x => expandToken (toLowerCase x))
                  (lit "MG" :: map snd [(lit "  ", lit "Rd"); (lit " ", lit "Pune")]))).
Proof.
  apply normalizeAddress_words.
  - repeat constructor.
  - constructor.
  - split; [discriminate | repeat constructor].
  - repeat constructor; discriminate.
Defined.

(** X10: white space around an address and the case of its letters do
    not change its normal form. *)
Theorem normalizeAddress_ignores_case_and_margin :
  forall lead x trail y : string,
    spaces (list_ascii_of_string lead) -> spaces (list_ascii_of_string trail) ->
    toLowerCase (list_ascii_of_string x) = toLowerCase (list_ascii_of_string y) ->
    normalizeAddress (String.append lead (String.append x trail))
    = normalizeAddress y.
Proof.
  intros lead x trail y Hl Ht Hxy. unfold normalizeAddress. f_equal.
  rewrite !chars_append, normalizeChars_surrounded by assumption.
  unfold normalizeChars. rewrite Hxy. reflexivity.
Qed.

Lemma normalizeAddress_ignores_case_and_margin_witness :
  normalizeAddress (String.append "  " (String.append "MG Road" " "))
  = normalizeAddress "mg ROAD".
Proof.
  apply normalizeAddress_ignores_case_and_margin;
    [repeat constructor | repeat constructor | reflexivity].
Defined.

(** ** semanticCacheService.ts *)

(** X11: what [findSimilar] returns is an entry of the cache whose
    similarity exceeds the threshold; it is the first such entry or one
    behind it, and at least as similar to the query as the first. *)
Theorem findSimilar_sound :
  forall (svc : Service) (key : string) (q : list R) (e : CacheEntry),
    findSimilar svc key q = Some e ->
    exists before first after,
      cacheEntries svc = before ++ first :: after /\
      Forall (fun x => isCandidate q x = false) before /\
      isCandidate q first = true /\
      (e = first \/ In e after) /\
      isCandidate q e = true /\
      (similarityTo q first <= similarityTo q e)%R.
Proof.
  intros svc key q e H. rewrite findSimilar_selectBest in H.
  apply selectBest_Some, H.
Qed.

Lemma findSimilar_sound_witness :
  exists before first after,
    [equatorEntry 0 [1%R] 0] = before ++ first :: after /\
    Forall (fun x => isCandidate [1%R] x = false) before /\
    isCandidate [1%R] first = true /\
    (equatorEntry 0 [1%R] 0 = first \/ In (equatorEntry 0 [1%R] 0) after) /\
    isCandidate [1%R] (equatorEntry 0 [1%R] 0) = true /\
    (similarityTo [1%R] first <= similarityTo [1%R] (equatorEntry 0 [1%R] 0))%R.
Proof.
  apply (findSimilar_sound (serviceOf [equatorEntry 0 [1%R] 0]) "pune").
  rewrite findSimilar_selectBest. simpl selectBest.
  rewrite isCandidate_unit. reflexivity.
Defined.

(** X12: a query embedding of magnitude zero, or of a length that no
    stored embedding has, matches nothing, whatever the cache holds: the
    request goes to the provider. *)
Theorem findSimilar_degenerate_query :
  forall (svc : Service) (key : string) (q : list R),
    magnitude q = 0%R \/
    Forall (fun e => length q <> length (embedding e)) (cacheEntries svc) ->
    findSimilar svc key q = None /\
    (forall env address,
        generateEmbedding env (normalizeAddress address) = q ->
        fst (geocodeWithCache svc env address) = geocode env address).
Proof.
  intros svc key q H.
  assert (Hnone : forall k, findSimilar svc k q = None).
  { intros k. rewrite findSimilar_selectBest. apply selectBest_None.
    destruct H as [H | H].
    - apply List.Forall_forall. intros e _. apply isCandidate_degenerate. tauto.
    - eapply Forall_impl; [exact H |]. intros e He.
      apply isCandidate_degenerate. tauto. }
  split; [apply Hnone |].
  intros env a Hq. unfold geocodeWithCache. cbv zeta. rewrite Hq, Hnone.
  destruct (geocode env a); reflexivity.
Qed.

Lemma findSimilar_degenerate_query_witness :
  findSimilar (serviceOf [equatorEntry 0 [1%R] 0]) "pune" [1%R; 0%R] = None.
Proof.
  apply (findSimilar_degenerate_query (serviceOf [equatorEntry 0 [1%R] 0])).
  right. repeat constructor. simpl. lia.
Defined.

(** X13: insert, then look up, under any two thresholds.  An address that
    missed the cache and that the provider resolved is asked for again,
    with the same embedding.  If the similarity of that embedding to
    itself, as [cosineSimilarity] computes it, exceeds the similarity
    threshold, the second request is answered from the cache, with the
    coordinates, name and fields of the provider's result, and leaves the
    cache as it is; if it does not, the second request goes to the provider
    as the first did.  Over the reals an embedding whose magnitude is not
    zero has similarity 1 to itself, so that the second request is a hit
    under every threshold below 1, the default of 0.85 among them. *)
Theorem geocode_then_hit :
  forall (similarityThreshold distanceThreshold : R) (svc : Service)
         (env1 env2 : Env) (address : string) (r : GeocodingResult),
    let q := generateEmbedding env1 (normalizeAddress address) in
    let stored :=
      snd (Configured.geocodeWithCache similarityThreshold distanceThreshold
             svc env1 address) in
    Configured.findSimilar similarityThreshold distanceThreshold svc
      (normalizeAddress address) q = None ->
    geocode env1 address = Some r ->
    generateEmbedding env2 (normalizeAddress address) = q ->
    ((similarityThreshold < cosineSimilarity q q)%R ->
     Configured.geocodeWithCache similarityThreshold distanceThreshold
       stored env2 address
     = (Some {| rLat := rLat r; rLng := rLng r;
                rDisplayName := rDisplayName r;
                rStructured := rStructured r; source := FromCache |},
        stored)) /\
    ((cosineSimilarity q q <= similarityThreshold)%R ->
     fst (Configured.geocodeWithCache similarityThreshold distanceThreshold
            stored env2 address)
     = geocode env2 address) /\
    ((similarityThreshold < 1)%R -> magnitude q <> 0%R ->
     (similarityThreshold < cosineSimilarity q q)%R) /\
    Configured.geocodeWithCache SIMILARITY_THRESHOLD DISTANCE_THRESHOLD
    = geocodeWithCache /\
    (SIMILARITY_THRESHOLD < 1)%R.
Proof.
  intros th dth svc env1 env2 address r q stored Hmiss Hgeo Hsame.
  destruct (ConfiguredFacts.geocodeWithCache_again th dth svc env1 env2 address r
              Hmiss Hgeo Hsame) as [Hhit Hagain].
  split; [exact Hhit |]. split; [exact Hagain |].
  split; [apply ConfiguredFacts.self_similarity_exceeds |].
  split; [reflexivity | unfold SIMILARITY_THRESHOLD; lra].
Qed.

(** An embedding service that knows one direction only, and a provider
    that knows one place. *)
Definition simple : Env :=
  {| generateEmbedding := fun _ => [1%R];
     geocode := fun _ => Some somewhere;
     reverseGeocode := fun _ _ => None;
     now := 0 |}.

Lemma magnitude_1 : magnitude [1%R] = 1%R.
Proof.
  unfold magnitude. simpl.
  replace (1 * 1 + 0)%R with 1%R by ring. apply sqrt_1.
Qed.

Lemma geocode_then_hit_witness :
  geocodeWithCache (snd (geocodeWithCache create simple "Pune")) simple "Pune"
  = (Some {| rLat := rLat somewhere; rLng := rLng somewhere;
             rDisplayName := rDisplayName somewhere;
             rStructured := rStructured somewhere; source := FromCache |},
     snd (geocodeWithCache create simple "Pune")).
Proof.
  apply (proj1 (geocode_then_hit SIMILARITY_THRESHOLD DISTANCE_THRESHOLD
                  create simple simple "Pune" somewhere
                  eq_refl eq_refl eq_refl)).
  change (generateEmbedding simple (normalizeAddress "Pune")) with [1%R].
  rewrite cosineSimilarity_self by (rewrite magnitude_1; lra).
  unfold SIMILARITY_THRESHOLD. lra.
Defined.


(** A world in which Nominatim knows a place for every pair of
    coordinates. *)
Definition atlas : Backend.World :=
  {| Backend.ollama := fun _ => OllamaService.Failed;
     Backend.nominatimSearch := fun _ => GeocodingService.Threw;
     Backend.nominatimReverse :=
       fun _ _ =>
         GeocodingService.Responded
           (Some {| GeocodingService.placeLat := "18.5";
                    GeocodingService.placeLon := "73.8";
                    GeocodingService.placeDisplayName := "Pune";
                    GeocodingService.placeAddress :=
                      Some {| GeocodingService.osmBuilding := None;
                              GeocodingService.osmHouseNumber := None;
                              GeocodingService.osmRoad := None;
                              GeocodingService.osmStreet := None;
                              GeocodingService.osmSuburb := None;
                              GeocodingService.osmNeighbourhood := None;
                              GeocodingService.osmQuarter := None;
                              GeocodingService.osmCity := Some "";
                              GeocodingService.osmTown := Some "Pune";
                              GeocodingService.osmVillage := None;
                              GeocodingService.osmMunicipality := None;
                              GeocodingService.osmState := Some "Maharashtra";
                              GeocodingService.osmPostcode := None;
                              GeocodingService.osmCountry := Some "India" |} |});
     Backend.clock := 0 |}.


(** X15: in every reachable state each record of the keyed store is an
    entry of the ordered sequence, filed under the key of that entry; the
    statistics therefore never show more keys than entries, and never more
    than 1000 entries. *)
Theorem keyed_store_within_sequence :
  forall evs : list Event,
    (forall key expiry e,
        NodeCache.data (cache (run evs)) !! key = Some (expiry, e) ->
        In e (cacheEntries (run evs)) /\ entryKey e = key) /\
    (keys (getStats (run evs)) <= entries (getStats (run evs)) <= 1000)%nat.
Proof.
  intros evs. pose proof (run_wellFormed evs) as [Hk _].
  split; [exact Hk |]. split; [apply keys_le_entries, Hk |].
  apply fold_step_length. simpl. lia.
Qed.


Lemma keyed_store_within_sequence_witness :
  In (newEntry "Pune" (normalizeAddress "Pune") somewhere [1%R] 0)
    (cacheEntries (run [Geocode simple "Pune"]))
  /\ entryKey (newEntry "Pune" (normalizeAddress "Pune") somewhere [1%R] 0)
     = keyOf (normalizeAddress "Pune").
Proof.
  eapply (proj1 (keyed_store_within_sequence [Geocode simple "Pune"])).
  change (run [Geocode simple "Pune"])
    with (store create "Pune" (normalizeAddress "Pune") somewhere [1%R] 0).
  rewrite store_data_kept by reflexivity. apply lookup_insert_eq.
Defined.

(** X17: with [ollamaService] and [geocodingService] as collaborators the
    provenance tag tells what happened: a result tagged as from the cache
    is built from an entry of the cache and the cache is as before; a
    result tagged as from the provider followed a miss and has been
    stored.  So on the forward path and on the reverse path. *)
Theorem provenance_is_truthful :
  forall (parseFloat : string -> R) (svc : Service) (w : Backend.World),
    (forall address res svc',
        geocodeWithCache svc (Backend.envOf parseFloat w) address = (Some res, svc') ->
        (source res = FromCache /\ svc' = svc /\
         exists e, In e (cacheEntries svc) /\ res = fromCache e)
        \/
        (source res = FromApi /\
         findSimilar svc (normalizeAddress address)
           (generateEmbedding (Backend.envOf parseFloat w) (normalizeAddress address))
         = None /\
         svc' = store svc address (normalizeAddress address) res
                  (generateEmbedding (Backend.envOf parseFloat w)
                     (normalizeAddress address))
                  (Backend.clock w))) /\
    (forall lat0 lng0 res svc',
        reverseGeocodeWithCache svc (Backend.envOf parseFloat w) lat0 lng0
        = (Some res, svc') ->
        (source res = FromCache /\ svc' = svc /\
         exists e, In e (cacheEntries svc) /\ res = fromCache e)
        \/
        (source res = FromApi /\ findNearby svc lat0 lng0 100 = None /\
         rLat res = lat0 /\ rLng res = lng0 /\
         In (newEntry (rDisplayName res) (normalizeAddress (rDisplayName res)) res
               (generateEmbedding (Backend.envOf parseFloat w)
                  (normalizeAddress (rDisplayName res)))
               (Backend.clock w))
            (cacheEntries svc'))).
Proof.
  intros pf svc w. split.
  - intros a res svc' H. unfold geocodeWithCache in H. cbv zeta in H.
    destruct (findSimilar svc _ _) as [e |] eqn:Hfind.
    + injection H as <- <-. left. split; [reflexivity |]. split; [reflexivity |].
      exists e. split; [eapply findSimilar_In; exact Hfind | reflexivity].
    + destruct (geocode (Backend.envOf pf w) a) as [r |] eqn:Hgeo;
        [| discriminate].
      injection H as <- <-. right. split; [| split; reflexivity].
      simpl in Hgeo. unfold GeocodingService.geocode in Hgeo.
      destruct (Backend.nominatimSearch w a) as [[[|p ps] |] |]; try discriminate.
      destruct (GeocodingService.placeAddress p); [| discriminate].
      injection Hgeo as <-. reflexivity.
  - intros la lo res svc' H. unfold reverseGeocodeWithCache in H.
    destruct (findNearby svc la lo 100) as [e |] eqn:Hfind.
    + injection H as <- <-. left. split; [reflexivity |]. split; [reflexivity |].
      exists e. split; [eapply findNearby_In; exact Hfind | reflexivity].
    + destruct (reverseGeocode (Backend.envOf pf w) la lo) as [r |] eqn:Hrev;
        [| discriminate].
      injection H as <- <-. right.
      assert (Hr : rLat r = la /\ rLng r = lo /\ source r = FromApi).
      { simpl in Hrev. unfold GeocodingService.reverseGeocode in Hrev.
        destruct (Backend.nominatimReverse w la lo) as [[p |] |]; try discriminate.
        destruct (GeocodingService.placeAddress p); [| discriminate].
        injection Hrev as <-. auto. }
      destruct Hr as (H1 & H2 & H3).
      split; [exact H3 |]. split; [reflexivity |].
      split; [exact H1 |]. split; [exact H2 |].
      apply store_In_new.
Qed.

Lemma provenance_is_truthful_witness :
  exists res svc',
    reverseGeocodeWithCache create (Backend.envOf (fun _ => 0%R) atlas) 18.5 73.8
    = (Some res, svc') /\
    ((source res = FromCache /\ svc' = create /\
      exists e, In e (cacheEntries create) /\ res = fromCache e)
     \/
     (source res = FromApi /\ findNearby create 18.5 73.8 100 = None /\
      rLat res = 18.5%R /\ rLng res = 73.8%R /\
      In (newEntry (rDisplayName res) (normalizeAddress (rDisplayName res)) res
            (generateEmbedding (Backend.envOf (fun _ => 0%R) atlas)
               (normalizeAddress (rDisplayName res)))
            (Backend.clock atlas))
         (cacheEntries svc'))).
Proof.
  eexists. eexists. split; [reflexivity |].
  apply (proj2 (provenance_is_truthful (fun _ => 0%R) create atlas)).
  reflexivity.
Defined.

(** ** ollamaService.ts *)

(** X18: the fallback embedding has 384 components, none of them
    negative; over the reals the similarity of two fallback embeddings is
    therefore between 0 and 1.  (In binary64 rounding can take the
    similarity of an embedding to itself above 1 in the last digit.) *)
Theorem fallbackEmbedding_shape :
  forall text text' : string,
    length (OllamaService.fallbackEmbedding text) = 384%nat /\
    Forall (fun v => (0 <= v)%R) (OllamaService.fallbackEmbedding text) /\
    (0 <= cosineSimilarity (OllamaService.fallbackEmbedding text)
            (OllamaService.fallbackEmbedding text') <= 1)%R.
Proof.
  intros text text'. split; [apply fallbackEmbedding_length |].
  split; [apply fallbackEmbedding_nonneg |].
  split; [| apply cosineSimilarity_bounds].
  apply cosineSimilarity_nonneg; apply fallbackEmbedding_nonneg.
Qed.

(** X19: over the reals, when the text, in lower case and trimmed, has a
    code unit other than NUL, its fallback embedding has magnitude 1 and
    similarity 1 to itself (in binary64 rounding can move both from 1 in
    the last digit); otherwise (the empty text, white space) it is the
    zero vector, as [generateEmbedding] returns it when Ollama has no
    embedding. *)
Theorem fallbackEmbedding_unit_or_zero :
  forall text : string,
    (hashable text ->
     magnitude (OllamaService.fallbackEmbedding text) = 1%R /\
     cosineSimilarity (OllamaService.fallbackEmbedding text)
       (OllamaService.fallbackEmbedding text) = 1%R) /\
    (~ hashable text ->
     OllamaService.fallbackEmbedding text = replicate 384 0%R /\
     OllamaService.generateEmbedding text OllamaService.Failed
     = replicate 384 0%R).
Proof.
  intros text. split.
  - intros H. pose proof (fallbackEmbedding_unit text H) as Hm.
    split; [exact Hm |]. apply cosineSimilarity_self. rewrite Hm. lra.
  - intros H. pose proof (fallbackEmbedding_zero text H) as Hz.
    split; exact Hz.
Qed.

Lemma fallbackEmbedding_unit_or_zero_witness :
  magnitude (OllamaService.fallbackEmbedding "pune") = 1%R /\
  cosineSimilarity (OllamaService.fallbackEmbedding "pune")
    (OllamaService.fallbackEmbedding "pune") = 1%R.
Proof.
  apply (proj1 (fallbackEmbedding_unit_or_zero "pune")).
  exists "p"%char. split; [left; reflexivity | discriminate].
Defined.

(** X20: without Ollama the cache still works.  Over the reals and under
    every similarity threshold below 1, the default of 0.85 among them: an
    address whose normal form is not blank, that missed the cache and that
    the provider resolved, is answered from the cache when it is asked for
    again. *)
Theorem fallback_then_hit :
  forall (similarityThreshold distanceThreshold : R)
         (parseFloat : string -> R) (svc : Service) (w1 w2 : Backend.World)
         (address : string) (r : GeocodingResult),
    (similarityThreshold < 1)%R ->
    (forall emb, Backend.ollama w1 (normalizeAddress address)
                 <> OllamaService.Embedding emb) ->
    (forall emb, Backend.ollama w2 (normalizeAddress address)
                 <> OllamaService.Embedding emb) ->
    (exists c, In c (list_ascii_of_string (normalizeAddress address))
               /\ isSpace c = false) ->
    Configured.findSimilar similarityThreshold distanceThreshold svc
      (normalizeAddress address)
      (OllamaService.fallbackEmbedding (normalizeAddress address)) = None ->
    geocode (Backend.envOf parseFloat w1) address = Some r ->
    Configured.geocodeWithCache similarityThreshold distanceThreshold
      (snd (Configured.geocodeWithCache similarityThreshold distanceThreshold
              svc (Backend.envOf parseFloat w1) address))
      (Backend.envOf parseFloat w2) address
    = (Some {| rLat := rLat r; rLng := rLng r;
               rDisplayName := rDisplayName r;
               rStructured := rStructured r; source := FromCache |},
       snd (Configured.geocodeWithCache similarityThreshold distanceThreshold
              svc (Backend.envOf parseFloat w1) address)).
Proof.
  intros th dth pf svc w1 w2 a r Hth H1 H2 Hchar Hmiss Hgeo.
  assert (Hfb : forall w,
             (forall emb, Backend.ollama w (normalizeAddress a)
                          <> OllamaService.Embedding emb) ->
             generateEmbedding (Backend.envOf pf w) (normalizeAddress a)
             = OllamaService.fallbackEmbedding (normalizeAddress a)).
  { intros w Hw. simpl. unfold OllamaService.generateEmbedding.
    destruct (Backend.ollama w (normalizeAddress a)) as [emb | |] eqn:Ho;
      [| reflexivity | reflexivity].
    exfalso. exact (Hw emb eq_refl). }
  apply (ConfiguredFacts.geocodeWithCache_again th dth svc
           (Backend.envOf pf w1) (Backend.envOf pf w2) a r).
  - rewrite (Hfb w1 H1). exact Hmiss.
  - exact Hgeo.
  - rewrite (Hfb w1 H1), (Hfb w2 H2). reflexivity.
  - apply ConfiguredFacts.self_similarity_exceeds; [exact Hth |].
    rewrite (Hfb w1 H1), fallbackEmbedding_unit; [lra |].
    apply normal_form_hashable, Hchar.
Qed.

(** A world without Ollama in which Nominatim finds one place for every
    address. *)
Definition offlineOllama : Backend.World :=
  {| Backend.ollama := fun _ => OllamaService.Failed;
     Backend.nominatimSearch :=
       fun _ =>
         match Backend.nominatimReverse atlas 0 0 with
         | GeocodingService.Responded (Some place) =>
             GeocodingService.Responded (Some [place])
         | _ => GeocodingService.Threw
         end;
     Backend.nominatimReverse := fun _ _ => GeocodingService.Threw;
     Backend.clock := 0 |}.

Lemma fallback_then_hit_witness :
  exists r,
    geocode (Backend.envOf (fun _ => 0%R) offlineOllama) "Pune" = Some r /\
    geocodeWithCache
      (snd (geocodeWithCache create (Backend.envOf (fun _ => 0%R) offlineOllama)
              "Pune"))
      (Backend.envOf (fun _ => 0%R) offlineOllama) "Pune"
    = (Some {| rLat := rLat r; rLng := rLng r;
               rDisplayName := rDisplayName r;
               rStructured := rStructured r; source := FromCache |},
       snd (geocodeWithCache create (Backend.envOf (fun _ => 0%R) offlineOllama)
              "Pune")).
Proof.
  eexists. split; [reflexivity |].
  apply (fallback_then_hit SIMILARITY_THRESHOLD DISTANCE_THRESHOLD).
  - unfold SIMILARITY_THRESHOLD. lra.
  - intros emb. discriminate.
  - intros emb. discriminate.
  - exists "p"%char. split; [left; reflexivity | reflexivity].
  - reflexivity.
  - reflexivity.
Defined.

(** ** geocodingService.ts *)

(** The first truthy value of a chain of [||], and the last value when
    there is none. *)
Fixpoint firstTruthy (candidates : list (option string)) : option string :=
  match candidates with
  | [] => None
  | [v] => v
  | v :: rest => if GeocodingService.truthy v then v else firstTruthy rest
  end.

Lemma firstTruthy_truthy (candidates : list (option string)) :
  GeocodingService.truthy (firstTruthy candidates)
  = existsb GeocodingService.truthy candidates.
Proof.
  induction candidates as [|v rest IH]; [reflexivity |].
  destruct rest as [|v' rest'].
  - simpl. rewrite orb_false_r. reflexivity.
  - change (firstTruthy (v :: v' :: rest'))
      with (if GeocodingService.truthy v then v else firstTruthy (v' :: rest')).
    change (existsb GeocodingService.truthy (v :: v' :: rest'))
      with (GeocodingService.truthy v
            || existsb GeocodingService.truthy (v' :: rest')).
    destruct (GeocodingService.truthy v) eqn:Hv; [exact Hv | exact IH].
Qed.

Lemma orElse_chain2 (a b : option string) :
  GeocodingService.orElse a b = firstTruthy [a; b].
Proof. reflexivity. Qed.

Lemma orElse_chain3 (a b c : option string) :
  GeocodingService.orElse (GeocodingService.orElse a b) c = firstTruthy [a; b; c].
Proof.
  cbn [firstTruthy]. destruct (GeocodingService.truthy a) eqn:Ha.
  - rewrite (orElse_first a b Ha). apply orElse_first, Ha.
  - rewrite (orElse_second a b Ha). reflexivity.
Qed.

Lemma orElse_chain4 (a b c d : option string) :
  GeocodingService.orElse
    (GeocodingService.orElse (GeocodingService.orElse a b) c) d
  = firstTruthy [a; b; c; d].
Proof.
  rewrite (orElse_chain3 a b c).
  change (firstTruthy [a; b; c; d])
    with (if GeocodingService.truthy a then a else firstTruthy [b; c; d]).
  change (firstTruthy [a; b; c])
    with (if GeocodingService.truthy a then a else firstTruthy [b; c]).
  destruct (GeocodingService.truthy a) eqn:Ha; [apply orElse_first, Ha |].
  change (firstTruthy [b; c; d])
    with (if GeocodingService.truthy b then b else firstTruthy [c; d]).
  change (firstTruthy [b; c])
    with (if GeocodingService.truthy b then b else c).
  destruct (GeocodingService.truthy b) eqn:Hb; [apply orElse_first, Hb |].
  reflexivity.
Qed.

(** X21: every field of the address that [parseAddress] builds is the
    first non-empty one of its candidates, in the order of the source; an
    empty string counts as missing.  A field is non-empty exactly when one
    of its candidates is. *)
Theorem parseAddress_first_nonempty :
  forall osm : GeocodingService.OsmAddress,
    let r := GeocodingService.parseAddress osm in
    building r = firstTruthy [GeocodingService.osmBuilding osm;
                              GeocodingService.osmHouseNumber osm] /\
    street r = firstTruthy [GeocodingService.osmRoad osm;
                            GeocodingService.osmStreet osm] /\
    area r = firstTruthy [GeocodingService.osmSuburb osm;
                          GeocodingService.osmNeighbourhood osm;
                          GeocodingService.osmQuarter osm] /\
    city r = firstTruthy [GeocodingService.osmCity osm;
                          GeocodingService.osmTown osm;
                          GeocodingService.osmVillage osm;
                          GeocodingService.osmMunicipality osm] /\
    GeocodingService.truthy (city r)
    = existsb GeocodingService.truthy
        [GeocodingService.osmCity osm; GeocodingService.osmTown osm;
         GeocodingService.osmVillage osm; GeocodingService.osmMunicipality osm] /\
    state r = GeocodingService.osmState osm /\
    pincode r = GeocodingService.osmPostcode osm /\
    country r = GeocodingService.osmCountry osm.
Proof.
  intros osm r. unfold r. cbn [GeocodingService.parseAddress building street
                                 area city state pincode country].
  split; [apply orElse_chain2 |]. split; [apply orElse_chain2 |].
  split; [apply orElse_chain3 |]. split; [apply orElse_chain4 |].
  split; [| repeat split].
  rewrite orElse_chain4. apply firstTruthy_truthy.
Qed.

(** X22: [autocomplete] returns the suggestions that mention Maharashtra
    in front of the others, both groups in the order of the response; it
    returns nothing when the request fails or a place has no address; the
    query that is sent always contains "Maharashtra". *)
Theorem autocomplete_maharashtra_first :
  (forall query data results,
      GeocodingService.suggestions data = Some results ->
      GeocodingService.autocomplete query (GeocodingService.Responded (Some data))
      = List.filter GeocodingService.isMH results
        ++ List.filter (fun a => negb (GeocodingService.isMH a)) results
      /\ length results = length data) /\
  (forall query data,
      GeocodingService.suggestions data = None ->
      GeocodingService.autocomplete query (GeocodingService.Responded (Some data))
      = []) /\
  (forall query,
      GeocodingService.autocomplete query GeocodingService.Threw = []) /\
  (forall query,
      GeocodingService.includes
        (list_ascii_of_string (GeocodingService.enhancedQuery query))
        (list_ascii_of_string "Maharashtra") = true).
Proof.
  split; [| split; [| split]].
  - intros query data results H. unfold GeocodingService.autocomplete.
    rewrite H. split; [apply sortBy_mhFirst | eapply suggestions_length, H].
  - intros query data H. unfold GeocodingService.autocomplete. rewrite H.
    reflexivity.
  - reflexivity.
  - intros query. unfold GeocodingService.enhancedQuery.
    destruct (GeocodingService.includes (list_ascii_of_string query) _) eqn:H;
      [exact H |].
    rewrite chars_append.
    change (list_ascii_of_string ", Maharashtra")
      with (list_ascii_of_string ", " ++ list_ascii_of_string "Maharashtra" ++ []).
    rewrite app_assoc. apply includes_app.
Qed.

Definition placeNamed (name : string) : GeocodingService.Place :=
  {| GeocodingService.placeLat := "0";
     GeocodingService.placeLon := "0";
     GeocodingService.placeDisplayName := name;
     GeocodingService.placeAddress :=
       match Backend.nominatimReverse atlas 0 0 with
       | GeocodingService.Responded (Some place) =>
           GeocodingService.placeAddress place
       | _ => None
       end |}.

Lemma autocomplete_maharashtra_first_witness :
  map GeocodingService.suggestionDisplayName
    (GeocodingService.autocomplete "Pune"
       (GeocodingService.Responded
          (Some [placeNamed "Pune, Ohio"; placeNamed "Pune, Maharashtra";
                 placeNamed "Pune Road, Goa"; placeNamed "Camp, MAHARASHTRA"])))
  = ["Pune, Maharashtra"; "Camp, MAHARASHTRA"; "Pune, Ohio"; "Pune Road, Goa"].
Proof.
  rewrite (proj1 (proj1 autocomplete_maharashtra_first "Pune"
                    [placeNamed "Pune, Ohio"; placeNamed "Pune, Maharashtra";
                     placeNamed "Pune Road, Goa"; placeNamed "Camp, MAHARASHTRA"]
                    _ eq_refl)).
  reflexivity.
Defined.

(** ** server.ts *)

Lemma postGeocode_cases (address : Server.JsValue) :
  (forall s, address = Server.JsString s -> s = EmptyString) \/
  (exists s, address = Server.JsString s /\ s <> EmptyString).
Proof.
  destruct address as [| | b | x | s |];
    try (left; intros s' H; discriminate H).
  destruct (String.eqb_spec s EmptyString) as [-> | Hne].
  - left. intros s' [= <-]. reflexivity.
  - right. exists s. split; [reflexivity | exact Hne].
Qed.

Lemma postGeocode_rejects svc env (address : Server.JsValue) :
  (forall s, address = Server.JsString s -> s = EmptyString) ->
  Server.postGeocode svc env address
  = ({| Server.status := 400; Server.body := Server.Error "Address is required" |},
     svc).
Proof.
  intros H. destruct address as [| | b | x | s |]; try reflexivity.
  rewrite (H s eq_refl). reflexivity.
Qed.

(** X23: [POST /api/geocode] answers 400, 404 or 200; 400 exactly when
    the address is not a non-empty string, and then, as with 404, the
    cache is as before; 200 carries the result of [geocodeWithCache]. *)
Theorem postGeocode_statuses :
  forall (svc : Service) (env : Env) (address : Server.JsValue),
    let resp := fst (Server.postGeocode svc env address) in
    let svc' := snd (Server.postGeocode svc env address) in
    (Server.status resp = 400%nat \/ Server.status resp = 404%nat
     \/ Server.status resp = 200%nat) /\
    (Server.status resp = 400%nat <->
     forall s, address = Server.JsString s -> s = EmptyString) /\
    (Server.status resp <> 200%nat -> svc' = svc) /\
    (Server.status resp = 200%nat ->
     exists s r, address = Server.JsString s /\
                 geocodeWithCache svc env s = (Some r, svc') /\
                 Server.body resp = Server.Result r).
Proof.
  intros svc env address resp svc'. subst resp svc'.
  destruct (postGeocode_cases address) as [Hbad | (s & -> & Hne)].
  - rewrite (postGeocode_rejects svc env address Hbad). simpl.
    split; [tauto |]. split; [tauto |]. split; [reflexivity | discriminate].
  - unfold Server.postGeocode.
    destruct (String.eqb_spec s EmptyString) as [-> | _]; [congruence |].
    destruct (geocodeWithCache svc env s) as [[r |] after] eqn:Hcall; simpl.
    + split; [tauto |]. split; [| split].
      * split; [discriminate | intros H; exfalso; apply Hne, H; reflexivity].
      * intros H. congruence.
      * intros _. exists s, r. auto.
    + split; [tauto |]. split; [| split].
      * split; [discriminate | intros H; exfalso; apply Hne, H; reflexivity].
      * intros _. unfold geocodeWithCache in Hcall. cbv zeta in Hcall.
        destruct (findSimilar svc _ _); [discriminate |].
        destruct (geocode env s); [discriminate |].
        injection Hcall as <-. reflexivity.
      * discriminate.
Qed.

Lemma postGeocode_statuses_witness :
  snd (Server.postGeocode create offline (Server.JsString "Nowhere")) = create.
Proof.
  apply (proj1 (proj2 (proj2
           (postGeocode_statuses create offline (Server.JsString "Nowhere"))))).
  discriminate.
Defined.

Lemma postReverseGeocode_cases (lat0 lng0 : Server.JsValue) :
  (exists la lo, lat0 = Server.JsNumber la /\ lng0 = Server.JsNumber lo) \/
  ~ (exists la lo, lat0 = Server.JsNumber la /\ lng0 = Server.JsNumber lo).
Proof.
  destruct lat0 as [| | b | la | s |];
    try (right; intros (a & b' & H & _); discriminate H).
  destruct lng0 as [| | b | lo | s |];
    try (right; intros (a & b' & _ & H); discriminate H).
  left. eauto.
Qed.

Lemma postReverseGeocode_rejects svc gen reply t (lat0 lng0 : Server.JsValue) :
  ~ (exists la lo, lat0 = Server.JsNumber la /\ lng0 = Server.JsNumber lo) ->
  Server.postReverseGeocode svc gen reply t lat0 lng0
  = ({| Server.status := 400;
        Server.body := Server.Error "Valid latitude and longitude are required" |},
     svc).
Proof.
  intros H. destruct lat0, lng0; try reflexivity.
  exfalso. apply H. eauto.
Qed.

(** The response has an address and no name. *)
Definition nameless (reply : GeocodingService.Reply Unchecked.ReverseData) : Prop :=
  exists data osm,
    reply = GeocodingService.Responded (Some data) /\
    Unchecked.reverseAddress data = Some osm /\
    Unchecked.reverseDisplayName data = None.

(** How the call of the route ends. *)
Lemma reverseGeocodeWithCache_outcomes svc gen reply t la lo :
  match Unchecked.reverseGeocodeWithCache svc gen reply t la lo with
  | Unchecked.Returned (Some r) svc' =>
      ~ (findNearby svc la lo 100 = None /\ nameless reply)
  | Unchecked.Returned None svc' =>
      svc' = svc /\ ~ (findNearby svc la lo 100 = None /\ nameless reply)
  | Unchecked.Thrown svc' =>
      svc' = svc /\ findNearby svc la lo 100 = None /\ nameless reply
  end.
Proof.
  unfold Unchecked.reverseGeocodeWithCache, Unchecked.reverseGeocode.
  destruct (findNearby svc la lo 100) as [e |]; [intros [H _]; discriminate H |].
  destruct reply as [[data |] |].
  - destruct (Unchecked.reverseAddress data) as [osm |] eqn:Ha; simpl.
    + destruct (Unchecked.reverseDisplayName data) as [name |] eqn:Hn.
      * intros [_ (d & osm' & [= <-] & _ & H)]. congruence.
      * split; [reflexivity |]. split; [reflexivity |]. exists data, osm. auto.
    + split; [reflexivity |]. intros [_ (d & osm & [= <-] & H & _)]. congruence.
  - split; [reflexivity |]. intros [_ (d & osm & H & _)]. discriminate H.
  - split; [reflexivity |]. intros [_ (d & osm & H & _)]. discriminate H.
Qed.

(** The response of a provider that keeps to the types. *)
Definition checked (reply : GeocodingService.Reply GeocodingService.Place)
    : GeocodingService.Reply Unchecked.ReverseData :=
  match reply with
  | GeocodingService.Responded (Some place) =>
      GeocodingService.Responded
        (Some {| Unchecked.reverseDisplayName :=
                   Some (GeocodingService.placeDisplayName place);
                 Unchecked.reverseAddress := GeocodingService.placeAddress place |})
  | GeocodingService.Responded None => GeocodingService.Responded None
  | GeocodingService.Threw => GeocodingService.Threw
  end.

(** On such a response the call returns what [reverseGeocodeWithCache]
    returns with [geocodingService] as its collaborator. *)
Lemma reverseGeocodeWithCache_checked (parseFloat : string -> R) svc
    (w : Backend.World) la lo :
  Unchecked.reverseGeocodeWithCache svc
    (generateEmbedding (Backend.envOf parseFloat w))
    (checked (Backend.nominatimReverse w la lo)) (Backend.clock w) la lo
  = Unchecked.Returned
      (fst (reverseGeocodeWithCache svc (Backend.envOf parseFloat w) la lo))
      (snd (reverseGeocodeWithCache svc (Backend.envOf parseFloat w) la lo)).
Proof.
  unfold Unchecked.reverseGeocodeWithCache, reverseGeocodeWithCache.
  destruct (findNearby svc la lo 100) as [e |]; [reflexivity |].
  simpl reverseGeocode. unfold GeocodingService.reverseGeocode, checked.
  destruct (Backend.nominatimReverse w la lo) as [[place |] |]; try reflexivity.
  simpl. destruct (GeocodingService.placeAddress place); reflexivity.
Qed.

(** X24: [POST /api/reverse-geocode] answers 400 exactly when one of the
    coordinates is not a number.  Two numbers are looked up whatever their
    range and answered with 200, 404 or 500; with 500 exactly when they
    miss the cache and the response of the provider has an address and no
    name, so that [normalizeAddress] throws.  An answer other than 200, the
    500 among them, leaves the cache as before.  When the response keeps to
    the types, the route answers 200 with the result of
    [reverseGeocodeWithCache], and 404 when there is none. *)
Theorem postReverseGeocode_statuses :
  (forall (svc : Service) (gen : string -> list R)
          (reply : R -> R -> GeocodingService.Reply Unchecked.ReverseData)
          (t : Z) (lat0 lng0 : Server.JsValue),
      let resp := fst (Server.postReverseGeocode svc gen reply t lat0 lng0) in
      let svc' := snd (Server.postReverseGeocode svc gen reply t lat0 lng0) in
      (Server.status resp = 400%nat <->
       ~ exists la lo, lat0 = Server.JsNumber la /\ lng0 = Server.JsNumber lo) /\
      (forall la lo,
          lat0 = Server.JsNumber la -> lng0 = Server.JsNumber lo ->
          (Server.status resp = 200%nat \/ Server.status resp = 404%nat
           \/ Server.status resp = 500%nat) /\
          (Server.status resp = 500%nat <->
           findNearby svc la lo 100 = None /\ nameless (reply la lo))) /\
      (Server.status resp <> 200%nat -> svc' = svc)) /\
  (forall (parseFloat : string -> R) (svc : Service) (w : Backend.World)
          (la lo : R),
      Server.postReverseGeocode svc
        (generateEmbedding (Backend.envOf parseFloat w))
        (fun a b => checked (Backend.nominatimReverse w a b)) (Backend.clock w)
        (Server.JsNumber la) (Server.JsNumber lo)
      = match reverseGeocodeWithCache svc (Backend.envOf parseFloat w) la lo with
        | (Some r, after) =>
            ({| Server.status := 200; Server.body := Server.Result r |}, after)
        | (None, after) =>
            ({| Server.status := 404;
                Server.body := Server.Error "Location not found" |}, after)
        end).
Proof.
  split.
  - intros svc gen reply t lat0 lng0 resp svc'. subst resp svc'.
    destruct (postReverseGeocode_cases lat0 lng0)
      as [(la & lo & -> & ->) | Hbad].
    + unfold Server.postReverseGeocode.
      pose proof (reverseGeocodeWithCache_outcomes svc gen (reply la lo) t la lo)
        as Hout.
      destruct (Unchecked.reverseGeocodeWithCache svc gen (reply la lo) t la lo)
        as [[r |] after | after]; simpl.
      * split; [split; [discriminate | intros H; exfalso; apply H; eauto] |].
        split; [| congruence].
        intros a b' [= <-] [= <-]. split; [tauto |].
        split; [discriminate | intros H; exfalso; apply Hout, H].
      * destruct Hout as [-> Hnot].
        split; [split; [discriminate | intros H; exfalso; apply H; eauto] |].
        split; [| reflexivity].
        intros a b' [= <-] [= <-]. split; [tauto |].
        split; [discriminate | intros H; exfalso; apply Hnot, H].
      * destruct Hout as (-> & Hmiss & Hn).
        split; [split; [discriminate | intros H; exfalso; apply H; eauto] |].
        split; [| reflexivity].
        intros a b' [= <-] [= <-]. split; [tauto |].
        split; [intros _; split; assumption | reflexivity].
    + rewrite (postReverseGeocode_rejects svc gen reply t lat0 lng0 Hbad). simpl.
      split; [tauto |]. split; [| reflexivity].
      intros la lo -> ->. exfalso. apply Hbad. eauto.
  - intros pf svc w la lo. unfold Server.postReverseGeocode.
    rewrite reverseGeocodeWithCache_checked.
    destruct (reverseGeocodeWithCache svc (Backend.envOf pf w) la lo)
      as [[r |] after]; reflexivity.
Qed.

(** A response with an address and without a name. *)
Definition unnamed : Unchecked.ReverseData :=
  {| Unchecked.reverseDisplayName := None;
     Unchecked.reverseAddress :=
       Some {| GeocodingService.osmBuilding := None;
               GeocodingService.osmHouseNumber := None;
               GeocodingService.osmRoad := None;
               GeocodingService.osmStreet := None;
               GeocodingService.osmSuburb := None;
               GeocodingService.osmNeighbourhood := None;
               GeocodingService.osmQuarter := None;
               GeocodingService.osmCity := None;
               GeocodingService.osmTown := None;
               GeocodingService.osmVillage := None;
               GeocodingService.osmMunicipality := None;
               GeocodingService.osmState := Some "Maharashtra";
               GeocodingService.osmPostcode := None;
               GeocodingService.osmCountry := Some "India" |} |}.

Lemma postReverseGeocode_statuses_witness :
  Server.status
    (fst (Server.postReverseGeocode create (fun _ => [1%R])
            (fun _ _ => GeocodingService.Responded (Some unnamed)) 0%Z
            (Server.JsNumber 1000) (Server.JsNumber (-500)))) = 500%nat
  /\
  snd (Server.postReverseGeocode create (fun _ => [1%R])
         (fun _ _ => GeocodingService.Responded (Some unnamed)) 0%Z
         (Server.JsNumber 1000) (Server.JsNumber (-500))) = create.
Proof.
  split.
  - apply (proj2 (proj1 (proj2 (proj1 postReverseGeocode_statuses
             create (fun _ => [1%R])
             (fun _ _ => GeocodingService.Responded (Some unnamed)) 0%Z
             (Server.JsNumber 1000) (Server.JsNumber (-500))))
             1000%R (-500)%R eq_refl eq_refl)).
    split; [reflexivity |]. exists unnamed. eexists. repeat split.
  - apply (proj2 (proj2 (proj1 postReverseGeocode_statuses
             create (fun _ => [1%R])
             (fun _ _ => GeocodingService.Responded (Some unnamed)) 0%Z
             (Server.JsNumber 1000) (Server.JsNumber (-500))))).
    simpl. discriminate.
Defined.
